(** * across-tabs: a publish/subscribe channel between browser tabs

    Shallow embedding of [src/index.js] and the properties of its
    subscriber registry, of its three transports, of the fallback
    transport and of the load-time selector.

    The module keeps its state in two plain objects used as maps
    ([callbacks], [queue]) and talks to the browser through
    [localStorage], [BroadcastChannel], [SharedWorker], [console] and
    [JSON].  The state is threaded explicitly through a small
    state-and-exception monad; the browser primitives are modelled after
    the interface the program uses.

    Conventions of the model:
    - the two objects are finite maps of their own properties, and
      [name in object] also holds for the names every object inherits
      from [Object.prototype]; the value found under such a name is a
      function or the prototype, which has none of the array methods,
      so calling one on it raises a [TypeError];
    - a subscriber callback is a function of the host: a call to it is
      recorded, and it returns or raises; it does not call back into
      this module while a broadcast is running;
    - a context sees the storage events of the other contexts as a list
      of events handled one after the other. *)

From Stdlib Require Import ZArith String Ascii Bool Lia DecimalString DecimalZ.
From stdpp Require Import base option list gmap strings.

Local Open Scope Z_scope.

(** ** Host values

    A callback handle is an opaque function value compared by identity
    ([indexOf] uses [===]); the identity is a number.  What a callback
    does when it is called is not part of this program: the host says,
    for a handle and a payload, whether the call returns or raises.  The
    payload type, the value [undefined] and the two [JSON] built-ins are
    the host's as well. *)

Definition handle : Type := nat.

Inductive completion : Type :=
| Returns
| Raises.

#[global] Instance completion_eq_dec : EqDecision completion.
Proof. solve_decision. Defined.

Class Host : Type := {
  Data : Type;
  (** the value of a missing argument and of [[].shift()] *)
  undefined : Data;
  (** [JSON.stringify(data)] as the string [setItem] stores; [None]
      when serialisation raises *)
  JSON_stringify : Data -> option string;
  (** [JSON.parse(text)]; [None] when parsing raises *)
  JSON_parse : string -> option Data;
  (** calling the function [callback] with [data] *)
  behaviour : handle -> Data -> completion
}.

(** ** Built-ins of the language used by the program *)

Module Js.

Inductive error : Type :=
| TypeError
| SyntaxError
| ReferenceError (name : string)
| Thrown (callback : handle).

Inductive result (A : Type) : Type :=
| Ok (a : A)
| Exn (e : error).
Arguments Ok {A} a.
Arguments Exn {A} e.

(** [Array.prototype.indexOf]: index of the first element identical
    to [x], or [-1]. *)
Definition indexOf {A} `{EqDecision A} (x : A) (l : list A) : Z :=
  match list_find (fun y => y = x) l with
  | Some (i, _) => Z.of_nat i
  | None => -1
  end.

(** [Array.prototype.splice(start, deleteCount)] with no inserted
    items: a negative [start] counts from the end of the array. *)
Definition splice {A} (start deleteCount : Z) (l : list A) : list A :=
  let len := Z.of_nat (length l) in
  let actualStart :=
    if start <? 0 then Z.max (len + start) 0 else Z.min start len in
  let actualDeleteCount := Z.min (Z.max deleteCount 0) (len - actualStart) in
  take (Z.to_nat actualStart) l
    ++ drop (Z.to_nat (actualStart + actualDeleteCount)) l.

(** [Array.prototype.shift]: the removed first element (the default
    on an empty array) and the remaining array. *)
Definition shift {A} (dflt : A) (l : list A) : A * list A :=
  match l with
  | [] => (dflt, [])
  | x :: l' => (x, l')
  end.

(** [String.prototype.indexOf(pattern)] *)
Definition string_indexOf (pattern s : string) : Z :=
  match String.index 0 pattern s with
  | Some i => Z.of_nat i
  | None => -1
  end.

(** [String.prototype.replace(pattern, replacement)] with a string
    pattern: only the first occurrence is replaced.  The program
    passes the empty replacement, which has no [$] patterns. *)
Definition replace (pattern replacement s : string) : string :=
  match String.index 0 pattern s with
  | Some i =>
      substring 0 i s +:+ replacement
        +:+ substring (i + String.length pattern)
              (String.length s - (i + String.length pattern)) s
  | None => s
  end.

(** The property names of [Object.prototype], which every plain
    object inherits. *)
Definition inherited_names : list string :=
  ["constructor"; "__defineGetter__"; "__defineSetter__"; "hasOwnProperty";
   "__lookupGetter__"; "__lookupSetter__"; "isPrototypeOf";
   "propertyIsEnumerable"; "toString"; "valueOf"; "__proto__";
   "toLocaleString"]%string.

Definition inherited (name : string) : bool :=
  existsb (String.eqb name) inherited_names.

(** [name in object], for a plain object whose own properties are the
    entries of [m] *)
Definition in_object {A} (name : string) (m : gmap string A) : bool :=
  bool_decide (is_Some (m !! name)) || inherited name.

End Js.
Export Js.

(** ** The state of one browsing context *)

(** A [storage] event as seen by the other contexts. *)
Record StorageEvent : Type := {
  key : string;
  oldValue : option string;
  newValue : option string
}.

Section World.
Context `{Host}.

Record world : Type := {
  (** [const callbacks = {}]: topic to array of callbacks *)
  callbacks : gmap string (list handle);
  (** [const queue = {}] of [localStorageApiFactory] *)
  queue : gmap string (list Data);
  (** the items of [window.localStorage] *)
  storage : gmap string string;
  (** the property names of the global [window]; [None] when
      [typeof window === 'undefined'] *)
  window : option (gset string);
  (** trace of callback calls, oldest first *)
  invoked : list (handle * Data);
  (** trace of [storage] events fired to the other contexts *)
  fired : list StorageEvent;
  (** trace of envelopes given to [postMessage] *)
  posted : list (string * Data);
  (** trace of [console.warn] messages *)
  warned : list string
}.

Definition with_callbacks (f : gmap string (list handle) -> gmap string (list handle))
    (w : world) : world :=
  {| callbacks := f (callbacks w); queue := queue w; storage := storage w;
     window := window w; invoked := invoked w; fired := fired w;
     posted := posted w; warned := warned w |}.

Definition with_queue (f : gmap string (list Data) -> gmap string (list Data))
    (w : world) : world :=
  {| callbacks := callbacks w; queue := f (queue w); storage := storage w;
     window := window w; invoked := invoked w; fired := fired w;
     posted := posted w; warned := warned w |}.

Definition with_storage (f : gmap string string -> gmap string string)
    (w : world) : world :=
  {| callbacks := callbacks w; queue := queue w; storage := f (storage w);
     window := window w; invoked := invoked w; fired := fired w;
     posted := posted w; warned := warned w |}.

Definition log_invoked (c : handle) (d : Data) (w : world) : world :=
  {| callbacks := callbacks w; queue := queue w; storage := storage w;
     window := window w; invoked := invoked w ++ [(c, d)]; fired := fired w;
     posted := posted w; warned := warned w |}.

Definition log_fired (e : StorageEvent) (w : world) : world :=
  {| callbacks := callbacks w; queue := queue w; storage := storage w;
     window := window w; invoked := invoked w; fired := fired w ++ [e];
     posted := posted w; warned := warned w |}.

Definition log_posted (t : string) (d : Data) (w : world) : world :=
  {| callbacks := callbacks w; queue := queue w; storage := storage w;
     window := window w; invoked := invoked w; fired := fired w;
     posted := posted w ++ [(t, d)]; warned := warned w |}.

Definition log_warned (msg : string) (w : world) : world :=
  {| callbacks := callbacks w; queue := queue w; storage := storage w;
     window := window w; invoked := invoked w; fired := fired w;
     posted := posted w; warned := warned w ++ [msg] |}.

(** *** State and exception monad

    A raised exception keeps the state reached so far: the mutations
    done before a [throw] are not undone. *)

Definition M (A : Type) : Type := world -> result A * world.

Definition ret {A} (a : A) : M A := fun w => (Ok a, w).

Definition throw {A} (e : error) : M A := fun w => (Exn e, w).

Definition bind {A B} (m : M A) (k : A -> M B) : M B :=
  fun w =>
    match m w with
    | (Ok a, w') => k a w'
    | (Exn e, w') => (Exn e, w')
    end.

Definition gets {A} (f : world -> A) : M A := fun w => (Ok (f w), w).

Definition modify (f : world -> world) : M unit := fun w => (Ok tt, f w).

(** the state a computation ends in, and how it completes *)
Definition exec {A} (m : M A) (w : world) : world := snd (m w).
Definition outcome {A} (m : M A) (w : world) : result A := fst (m w).

End World.

Declare Scope js_scope.
Delimit Scope js_scope with js.
Notation "x ← y ; z" := (bind y (fun x => z))
  (at level 20, y at level 100, z at level 200, only parsing) : js_scope.
Notation "x ;; z" := (bind x (fun _ => z))
  (at level 100, z at level 200, only parsing, right associativity) : js_scope.
Local Open Scope js_scope.

(** ** The subscriber registry (lines 7-35) *)

Section Registry.
Context `{Host}.

(** [Array.prototype.forEach] over an array that the visited
    functions do not change: the first exception ends the loop. *)
Fixpoint forEach {A} (f : A -> M unit) (l : list A) : M unit :=
  match l with
  | [] => ret tt
  | x :: l' => f x ;; forEach f l'
  end.

(** [callback(data)] *)
Definition call (callback : handle) (data : Data) : M unit :=
  modify (log_invoked callback data) ;;
  match behaviour callback data with
  | Returns => ret tt
  | Raises => throw (Thrown callback)
  end.

(** [callbacks[topic].push(callback)] raises when [callbacks[topic]] is
    not an own entry, that is an array, but an inherited value. *)
Definition on (topic : string) (callback : handle) : M unit :=
  (cbs ← gets callbacks;
   if in_object topic cbs then ret tt
   else modify (with_callbacks (insert topic []))) ;;
  cbs ← gets callbacks;
  match cbs !! topic with
  | Some _ => modify (with_callbacks (alter (fun l => l ++ [callback]) topic))
  | None => throw TypeError
  end.

(** [callback] is [Some f] for a function argument and [None] for
    anything else ([typeof callback !== 'function']). *)
Definition off (topic : string) (callback : option handle) : M unit :=
  cbs ← gets callbacks;
  if in_object topic cbs then
    match callback with
    | Some f =>
        match cbs !! topic with
        | Some _ =>
            modify (with_callbacks
                      (alter (fun l => let index := indexOf f l in
                                       splice index 1 l) topic))
        | None => throw TypeError
        end
    | None => ret tt
    end ;;
    cbs' ← gets callbacks;
    if negb (bool_decide (is_Some callback))
       || bool_decide (length (default [] (cbs' !! topic)) = 0%nat)
    then modify (with_callbacks (delete topic))
    else ret tt
  else ret tt.

Definition broadcast (topic : string) (data : Data) : M unit :=
  cbs ← gets callbacks;
  if in_object topic cbs then
    match cbs !! topic with
    | Some l => forEach (fun callback => call callback data) l
    | None => throw TypeError
    end
  else ret tt.

End Registry.

(** ** Direct-Broadcast transport (lines 45-63) *)

Module broadcastChannelApiFactory.
Section Transport.
Context `{Host}.

(** [channel.postMessage({topic, data})]: the envelope is handed to
    the browser, which delivers it to the other contexts only. *)
Definition postMessage (topic : string) (data : Data) : M unit :=
  modify (log_posted topic data).

Definition send (topic : string) (data : Data) (includeSelf : bool) : M unit :=
  postMessage topic data ;;
  if includeSelf then broadcast topic data else ret tt.

(** [channel.onmessage], on the envelope [e.data] *)
Definition onmessage (e : string * Data) : M unit :=
  broadcast (fst e) (snd e).

End Transport.
End broadcastChannelApiFactory.

(** ** Worker-Relay transport (lines 75-101) *)

Module sharedWorkerApiFactory.
Section Transport.
Context `{Host}.

(** [worker.port.postMessage({topic, data})] *)
Definition postMessage (topic : string) (data : Data) : M unit :=
  modify (log_posted topic data).

Definition send (topic : string) (data : Data) (includeSelf : bool) : M unit :=
  postMessage topic data ;;
  if includeSelf then broadcast topic data else ret tt.

(** [worker.port.onmessage] *)
Definition onmessage (e : string * Data) : M unit :=
  broadcast (fst e) (snd e).

End Transport.

(** *** The path of the worker script (lines 77-81)

    [pathname.replace(/hermes(\.min)?\.js/, 'hermes-worker$1.js')]: the
    pattern is tried at each position from the left; at a position it
    reads [hermes], then [.min] if it is there, then [.js]; the first
    match is replaced, [$1] being the text of the group, empty when the
    group did not take part. *)

(** [s] without the text [p] it starts with *)
Fixpoint strip (p s : string) : option string :=
  match p, s with
  | EmptyString, _ => Some s
  | String a p', String b s' => if Ascii.eqb a b then strip p' s' else None
  | String _ _, EmptyString => None
  end.

(** the pattern at the start of [s]: the group and the text after the
    match *)
Definition match_here (s : string) : option (string * string) :=
  match strip "hermes" s with
  | Some r =>
      let with_group :=
        match strip ".min" r with
        | Some r1 =>
            match strip ".js" r1 with
            | Some rest => Some (".min"%string, rest)
            | None => None
            end
        | None => None
        end in
      match with_group with
      | Some m => Some m
      | None =>
          match strip ".js" r with
          | Some rest => Some (""%string, rest)
          | None => None
          end
      end
  | None => None
  end.

Fixpoint workerPath (pathname : string) : string :=
  match match_here pathname with
  | Some (group, rest) => "hermes-worker" +:+ group +:+ ".js" +:+ rest
  | None =>
      match pathname with
      | EmptyString => EmptyString
      | String c s' => String c (workerPath s')
      end
  end.

End sharedWorkerApiFactory.

(** ** Storage-Relay transport (lines 111-171) *)

Module localStorageApiFactory.
Section Transport.
Context `{Host}.

(** *** [window.localStorage]

    A mutation of the storage area fires one [storage] event, with
    the key and the old and new values, in every other context and
    none in the writer.  Setting a key to the value it has, or
    removing an absent key, is no mutation. *)

Definition getItem (k : string) : M (option string) :=
  gets (fun w => storage w !! k).

Definition setItem (k value : string) : M unit :=
  old ← gets (fun w => storage w !! k);
  if bool_decide (old = Some value) then ret tt
  else
    modify (with_storage (insert k value)) ;;
    modify (log_fired {| key := k; oldValue := old; newValue := Some value |}).

Definition removeItem (k : string) : M unit :=
  old ← gets (fun w => storage w !! k);
  match old with
  | Some v =>
      modify (with_storage (delete k)) ;;
      modify (log_fired {| key := k; oldValue := Some v; newValue := None |})
  | None => ret tt
  end.

(** [JSON.stringify(data)], raising when the host's does *)
Definition stringify (data : Data) : M string :=
  match JSON_stringify data with
  | Some s => ret s
  | None => throw TypeError
  end.

(** [JSON.parse(e.newValue)]: a null argument is read as the text
    [null]. *)
Definition parse (text : option string) : M Data :=
  match JSON_parse (default "null"%string text) with
  | Some d => ret d
  | None => throw SyntaxError
  end.

Definition prefix : string := "__across-tabs:".

Definition send (topic : string) (data : Data) (includeSelf : bool) : M unit :=
  let key := prefix +:+ topic in
  item ← getItem key;
  match item with
  | None =>
      (s ← stringify data; setItem key s) ;;
      removeItem key ;;
      if includeSelf then broadcast topic data else ret tt
  | Some _ =>
      (q ← gets queue;
       if in_object key q then ret tt
       else modify (with_queue (insert key []))) ;;
      q ← gets queue;
      match q !! key with
      | Some _ => modify (with_queue (alter (fun l => l ++ [data]) key))
      | None => throw TypeError
      end
  end.

(** first [storage] listener (lines 145-152) *)
Definition arrival_listener (e : StorageEvent) : M unit :=
  if bool_decide (string_indexOf prefix (key e) = 0)
     && bool_decide (oldValue e = None)
  then
    let topic := replace prefix "" (key e) in
    data ← parse (newValue e);
    broadcast topic data
  else ret tt.

(** second [storage] listener (lines 154-166) *)
Definition departure_listener (e : StorageEvent) : M unit :=
  if bool_decide (string_indexOf prefix (key e) = 0)
     && bool_decide (newValue e = None)
  then
    let topic := replace prefix "" (key e) in
    q ← gets queue;
    if in_object topic q then
      match q !! topic with
      | Some l =>
          let '(data, rest) := shift undefined l in
          modify (with_queue (insert topic rest)) ;;
          send topic data false ;;
          q' ← gets queue;
          match q' !! topic with
          | Some l' =>
              if bool_decide (length l' = 0%nat)
              then modify (with_queue (delete topic))
              else ret tt
          | None => throw TypeError
          end
      | None => throw TypeError
      end
    else ret tt
  else ret tt.

(** The browser runs the listeners of an event in the order they were
    added; an exception raised by one is reported and does not reach
    the next. *)
Definition dispatch (e : StorageEvent) : M unit :=
  fun w =>
    let w1 := exec (arrival_listener e) w in
    let w2 := exec (departure_listener e) w1 in
    (Ok tt, w2).

(** A context handling, one task after the other, the events fired
    by another context. *)
Definition deliver (es : list StorageEvent) (w : world) : world :=
  foldl (fun w e => exec (dispatch e) w) w es.

End Transport.
End localStorageApiFactory.

(** ** Fallback transport (lines 178-189) *)

Module emptyApiFactory.
Section Transport.
Context `{Host}.

Definition noop : M unit :=
  win ← gets window;
  match win with
  | Some _ => modify (log_warned "across-tabs messaging is not supported.")
  | None => ret tt
  end.

End Transport.
End emptyApiFactory.

(** ** The selector (lines 191-204) *)

Inductive transport : Type :=
| BroadcastChannelApi
| SharedWorkerApi
| LocalStorageApi
| EmptyApi.

(** ['name' in window] *)
Definition in_window (name : string) (props : gset string) : bool :=
  bool_decide (name ∈ props).

Definition selector (win : option (gset string)) : transport :=
  match win with
  | Some props =>
      if in_window "BroadcastChannel" props then BroadcastChannelApi
      else if false && in_window "SharedWorker" props then SharedWorkerApi
      else if in_window "localStorage" props then LocalStorageApi
      else EmptyApi
  | None => EmptyApi
  end.

(** The selection policy as the specification words it: the broadcast
    primitive first, then the shared store, then the fallback; a
    primitive is available when [window] exists and has it. *)
Definition available (name : string) (win : option (gset string)) : bool :=
  match win with
  | Some props => in_window name props
  | None => false
  end.

Definition policy (win : option (gset string)) : transport :=
  if available "BroadcastChannel" win then BroadcastChannelApi
  else if available "localStorage" win then LocalStorageApi
  else EmptyApi.

(** The object [{on, off, send}] each factory returns. *)
Record Api `{Host} : Type := {
  api_on : string -> handle -> M unit;
  api_off : string -> option handle -> M unit;
  api_send : string -> Data -> bool -> M unit
}.

Definition instantiate `{Host} (t : transport) : Api :=
  match t with
  | BroadcastChannelApi =>
      {| api_on := on; api_off := off; api_send := broadcastChannelApiFactory.send |}
  | SharedWorkerApi =>
      {| api_on := on; api_off := off; api_send := sharedWorkerApiFactory.send |}
  | LocalStorageApi =>
      {| api_on := on; api_off := off; api_send := localStorageApiFactory.send |}
  | EmptyApi =>
      {| api_on := fun _ _ => emptyApiFactory.noop;
         api_off := fun _ _ => emptyApiFactory.noop;
         api_send := fun _ _ _ => emptyApiFactory.noop |}
  end.

(** ** Evaluation of the module body (lines 191-206)

    Which binding an identifier denotes depends on the block structure
    of the text, so the last statements of the file are kept as syntax
    and run by an evaluator with explicit lexical environments: a block
    statement opens an environment, [const] binds in the innermost one,
    leaving the block drops it, and an identifier found in no open
    environment and not on the global object is a [ReferenceError]. *)

Module Toplevel.

Inductive value : Type :=
| VApi (t : transport)        (* the object a factory call returned *)
| VFunction (name : string)   (* a function declared by the module *)
| VObject (id : nat).         (* any other object of the host *)

Inductive cond : Type :=
| TypeofWindowDefined               (* typeof window !== 'undefined' *)
| InWindow (name : string)          (* 'name' in window *)
| FalseLit                          (* false *)
| And (c1 c2 : cond).               (* c1 && c2 *)

Inductive expr : Type :=
| CallFactory (t : transport)
| Ident (x : string).

Inductive stmt : Type :=
| Const (x : string) (e : expr)
| Block (body : stmt)
| If (c : cond) (s1 s2 : stmt)
| Seq (s1 s2 : stmt)
| AssignModuleExports (e : expr).

Record state : Type := {
  (** open lexical environments, innermost first *)
  scopes : list (gmap string value);
  (** factory calls made so far *)
  instantiated : list transport;
  (** [module.exports] *)
  exports : value
}.

Section Eval.
(** the global [window] and the properties of the global object *)
Variable win : option (gset string).
Variable globals : gmap string nat.

Fixpoint eval_cond (c : cond) : result bool :=
  match c with
  | TypeofWindowDefined => Ok (bool_decide (is_Some win))
  | InWindow name =>
      match win with
      | Some props => Ok (in_window name props)
      | None => Exn (ReferenceError "window")
      end
  | FalseLit => Ok false
  | And c1 c2 =>
      match eval_cond c1 with
      | Ok true => eval_cond c2
      | r => r
      end
  end.

Fixpoint resolve (x : string) (envs : list (gmap string value)) : option value :=
  match envs with
  | [] => VObject <$> globals !! x
  | env :: outer =>
      match env !! x with
      | Some v => Some v
      | None => resolve x outer
      end
  end.

Definition declare (x : string) (v : value) (envs : list (gmap string value))
    : list (gmap string value) :=
  match envs with
  | [] => [{[ x := v ]}]
  | env :: outer => <[x := v]> env :: outer
  end.

Definition eval_expr (e : expr) (st : state) : result value * state :=
  match e with
  | CallFactory t =>
      (Ok (VApi t),
       {| scopes := scopes st; instantiated := instantiated st ++ [t];
          exports := exports st |})
  | Ident x =>
      match resolve x (scopes st) with
      | Some v => (Ok v, st)
      | None => (Exn (ReferenceError x), st)
      end
  end.

Fixpoint exec_stmt (s : stmt) (st : state) : result unit * state :=
  match s with
  | Const x e =>
      match eval_expr e st with
      | (Ok v, st') =>
          (Ok tt, {| scopes := declare x v (scopes st');
                     instantiated := instantiated st';
                     exports := exports st' |})
      | (Exn err, st') => (Exn err, st')
      end
  | Block body =>
      let '(r, st') :=
        exec_stmt body {| scopes := ∅ :: scopes st;
                          instantiated := instantiated st;
                          exports := exports st |} in
      (r, {| scopes := tail (scopes st'); instantiated := instantiated st';
             exports := exports st' |})
  | If c s1 s2 =>
      match eval_cond c with
      | Ok true => exec_stmt s1 st
      | Ok false => exec_stmt s2 st
      | Exn err => (Exn err, st)
      end
  | Seq s1 s2 =>
      match exec_stmt s1 st with
      | (Ok _, st') => exec_stmt s2 st'
      | (Exn err, st') => (Exn err, st')
      end
  | AssignModuleExports e =>
      match eval_expr e st with
      | (Ok v, st') =>
          (Ok tt, {| scopes := scopes st'; instantiated := instantiated st';
                     exports := v |})
      | (Exn err, st') => (Exn err, st')
      end
  end.
End Eval.

(** Lines 191-206.  The branches of an [if] are block statements. *)
Definition program : stmt :=
  Seq
    (If TypeofWindowDefined
       (Block
          (If (InWindow "BroadcastChannel")
             (Block (Const "API" (CallFactory BroadcastChannelApi)))
             (If (And FalseLit (InWindow "SharedWorker"))
                (Block (Const "API" (CallFactory SharedWorkerApi)))
                (If (InWindow "localStorage")
                   (Block (Const "API" (CallFactory LocalStorageApi)))
                   (Block (Const "API" (CallFactory EmptyApi)))))))
       (Block (Const "API" (CallFactory EmptyApi))))
    (AssignModuleExports (Ident "API")).

(** The environments open when line 191 is reached: the bindings of
    the module wrapper, then the declarations of lines 7-189.
    [module.exports] starts as an empty object. *)
Definition wrapper_scope : gmap string value :=
  list_to_map
    [("exports"%string, VObject 0); ("require"%string, VFunction "require");
     ("module"%string, VObject 1); ("__filename"%string, VObject 2);
     ("__dirname"%string, VObject 3)].

Definition module_scope : gmap string value :=
  list_to_map
    [("callbacks"%string, VObject 4); ("on"%string, VFunction "on");
     ("off"%string, VFunction "off");
     ("broadcast"%string, VFunction "broadcast");
     ("broadcastChannelApiFactory"%string, VFunction "broadcastChannelApiFactory");
     ("sharedWorkerApiFactory"%string, VFunction "sharedWorkerApiFactory");
     ("localStorageApiFactory"%string, VFunction "localStorageApiFactory");
     ("emptyApiFactory"%string, VFunction "emptyApiFactory")].

Definition initial : state :=
  {| scopes := [module_scope; wrapper_scope]; instantiated := [];
     exports := VObject 0 |}.

Definition module_eval (win : option (gset string)) (globals : gmap string nat)
    : result unit * state :=
  exec_stmt win globals program initial.

End Toplevel.

(** ** Vocabulary of the statements *)

Section Vocabulary.
Context `{Host}.

Definition add_invoked (tr : list (handle * Data)) (w : world) : world :=
  {| callbacks := callbacks w; queue := queue w; storage := storage w;
     window := window w; invoked := invoked w ++ tr; fired := fired w;
     posted := posted w; warned := warned w |}.

Definition add_fired (es : list StorageEvent) (w : world) : world :=
  {| callbacks := callbacks w; queue := queue w; storage := storage w;
     window := window w; invoked := invoked w; fired := fired w ++ es;
     posted := posted w; warned := warned w |}.

(** The calls one [forEach] over [l] makes: the callbacks of [l] in
    order, up to and including the first that raises. *)
Fixpoint delivered (l : list handle) (data : Data) : list (handle * Data) :=
  match l with
  | [] => []
  | c :: l' =>
      (c, data) :: match behaviour c data with
                   | Returns => delivered l' data
                   | Raises => []
                   end
  end.

(** How that [forEach] completes. *)
Fixpoint completes (l : list handle) (data : Data) : result unit :=
  match l with
  | [] => Ok tt
  | c :: l' =>
      match behaviour c data with
      | Returns => completes l' data
      | Raises => Exn (Thrown c)
      end
  end.

(** The subscribers of a topic, the empty list for an unknown one. *)
Definition subscribers (topic : string) (w : world) : list handle :=
  default [] (callbacks w !! topic).

(** How [broadcast(topic, data)] completes: as the loop over the own
    entry of the topic; without one, normally, unless the topic is an
    inherited name. *)
Definition broadcast_completes (topic : string) (data : Data) (w : world)
    : result unit :=
  match callbacks w !! topic with
  | Some l => completes l data
  | None => if inherited topic then Exn TypeError else Ok tt
  end.

(** How [on(topic, c)] completes, and [off(topic, c)] with a function:
    with a [TypeError] for an inherited name without an own entry. *)
Definition registry_call_completes (topic : string) (w : world) : result unit :=
  match callbacks w !! topic with
  | Some _ => Ok tt
  | None => if inherited topic then Exn TypeError else Ok tt
  end.

(** [on(topic, c)] for each [c] of [cs], in order *)
Definition register (topic : string) (cs : list handle) : M unit :=
  forEach (fun c => on topic c) cs.

(** How often the callback [c] was called in a trace. *)
Definition calls_of (c : handle) (tr : list (handle * Data)) : nat :=
  length (filter (fun p => fst p = c) tr).

(** The events a computation fires from the state [w]. *)
Definition emitted {A} (m : M A) (w : world) : list StorageEvent :=
  drop (length (fired w)) (fired (exec m w)).

(** The registry after [off] leaves the list [l'] on a topic: an
    empty list takes the topic entry away. *)
Definition after_off (topic : string) (l' : list handle)
    (cbs : gmap string (list handle)) : gmap string (list handle) :=
  match l' with
  | [] => delete topic cbs
  | _ :: _ => <[topic := l']> cbs
  end.

(** The two events of one transmission: the slot [k] receives the
    text [s], then loses it. *)
Definition written (k s : string) : StorageEvent :=
  {| key := k; oldValue := None; newValue := Some s |}.

Definition removed (k s : string) : StorageEvent :=
  {| key := k; oldValue := Some s; newValue := None |}.

(** The pending queue with [data] appended under the key [k]. *)
Definition enqueued (k : string) (data : Data)
    (q : gmap string (list Data)) : gmap string (list Data) :=
  <[k := default [] (q !! k) ++ [data]]> q.

(** A computation that calls no callback. *)
Definition silent {A} (m : M A) : Prop :=
  forall w, invoked (exec m w) = invoked w.

(** A computation that leaves one component of the state as it was. *)
Definition keeps {A B} (f : world -> B) (m : M A) : Prop :=
  forall w, f (exec m w) = f w.

(** A computation that maintains a property of the state. *)
Definition maintains {A} (P : world -> Prop) (m : M A) : Prop :=
  forall w, P w -> P (exec m w).

(** What happens to a context that uses the storage transport: it
    calls the interface, it handles a storage event, or another
    context leaves the store with other items.  An exception ends the
    task that raised it and nothing else. *)
Inductive step : Type :=
| CallOn (topic : string) (callback : handle)
| CallOff (topic : string) (callback : option handle)
| CallSend (topic : string) (data : Data) (includeSelf : bool)
| Handle (e : StorageEvent)
| Elsewhere (items : gmap string string).

Definition perform (s : step) (w : world) : world :=
  match s with
  | CallOn topic callback => exec (on topic callback) w
  | CallOff topic callback => exec (off topic callback) w
  | CallSend topic data includeSelf =>
      exec (localStorageApiFactory.send topic data includeSelf) w
  | Handle e => exec (localStorageApiFactory.dispatch e) w
  | Elsewhere items => with_storage (fun _ => items) w
  end.

Definition history (ss : list step) (w : world) : world :=
  foldl (fun w s => perform s w) w ss.

(** No topic of the registry has an empty list. *)
Definition registry_ok (w : world) : Prop :=
  forall topic, callbacks w !! topic <> Some [].

(** No inherited name has an entry of its own in the registry. *)
Definition no_inherited_entry (w : world) : Prop :=
  forall topic, inherited topic = true -> callbacks w !! topic = None.

(** Every key of the pending queue is the key of a topic. *)
Definition queue_keys_ok (w : world) : Prop :=
  forall k, is_Some (queue w !! k) ->
            exists topic, k = localStorageApiFactory.prefix +:+ topic.

(** [send(topic, d)] for each [d] of [ds], in order *)
Definition send_all (topic : string) (ds : list Data) : M unit :=
  forEach (fun d => localStorageApiFactory.send topic d false) ds.

(** The text the store receives for a payload. *)
Definition text_of (d : Data) : string := default ""%string (JSON_stringify d).

(** The two events of the transmission of [d] on a topic. *)
Definition transmission (topic : string) (d : Data) : list StorageEvent :=
  [written (localStorageApiFactory.prefix +:+ topic) (text_of d);
   removed (localStorageApiFactory.prefix +:+ topic) (text_of d)].

(** A payload that [JSON.parse] recovers from its [JSON.stringify]
    text. *)
Definition recoverable (d : Data) : Prop :=
  JSON_stringify d ≫= JSON_parse = Some d.

End Vocabulary.

(** The pattern of the worker path matches at no position of [pre] in
    the text [pre ++ rest]. *)
Fixpoint no_match_before (pre rest : string) : bool :=
  match pre with
  | EmptyString => true
  | String c pre' =>
      negb (bool_decide (is_Some (sharedWorkerApiFactory.match_here (pre +:+ rest))))
      && no_match_before pre' rest
  end.

(** The file name the selector of line 77 asks for. *)
Definition script_name (min : bool) : string :=
  if min then "hermes.min.js"%string else "hermes.js"%string.

Definition worker_name (min : bool) : string :=
  if min then "hermes-worker.min.js"%string else "hermes-worker.js"%string.

(** ** A concrete host

    Payloads are [undefined], [null], a boolean or an integer, written
    as [JSON] writes them ([setItem] stores [undefined] as the text
    [undefined], which [JSON.parse] rejects); the callback with
    identity 0 raises on every call and the others return. *)

Module Demo.

Inductive payload : Type :=
| PUndefined
| PNull
| PBool (b : bool)
| PInt (z : Z).

Definition stringify (p : payload) : option string :=
  match p with
  | PUndefined => Some "undefined"%string
  | PNull => Some "null"%string
  | PBool true => Some "true"%string
  | PBool false => Some "false"%string
  | PInt z => Some (NilEmpty.string_of_int (Z.to_int z))
  end.

Definition parse (s : string) : option payload :=
  match NilEmpty.int_of_string s with
  | Some d =>
      let z := Z.of_int d in
      if String.eqb (NilEmpty.string_of_int (Z.to_int z)) s
      then Some (PInt z) else None
  | None =>
      if String.eqb s "null" then Some PNull
      else if String.eqb s "true" then Some (PBool true)
      else if String.eqb s "false" then Some (PBool false)
      else None
  end.

Definition host : Host :=
  {| Data := payload;
     undefined := PUndefined;
     JSON_stringify := stringify;
     JSON_parse := parse;
     behaviour := fun c _ => match c with O => Raises | S _ => Returns end |}.

Definition empty_world (win : option (gset string)) : @world host :=
  {| callbacks := ∅; queue := ∅; storage := ∅; window := win;
     invoked := []; fired := []; posted := []; warned := [] |}.

(** a browser with [localStorage] and no [BroadcastChannel] *)
Definition browser : option (gset string) :=
  Some {[ "localStorage"%string; "SharedWorker"%string ]}.

End Demo.

(** A second concrete host: the payloads of the first, and an object
    that refers to itself, which [JSON.stringify] rejects. *)

Module DemoCyclic.

Definition host : Host :=
  {| Data := option Demo.payload;
     undefined := Some Demo.PUndefined;
     JSON_stringify := fun d => d ≫= Demo.stringify;
     JSON_parse := fun s => Some <$> Demo.parse s;
     behaviour := fun c _ => match c with O => Raises | S _ => Returns end |}.

Definition cyclic : @Data host := None.

Definition empty_world (win : option (gset string)) : @world host :=
  {| callbacks := ∅; queue := ∅; storage := ∅; window := win;
     invoked := []; fired := []; posted := []; warned := [] |}.

End DemoCyclic.

(** * Properties *)

(** ** The monad *)

Section MonadFacts.
Context `{Host}.

Lemma add_invoked_nil (w : world) : add_invoked [] w = w.
Proof. destruct w; unfold add_invoked; simpl. by rewrite app_nil_r. Qed.

Lemma add_invoked_app tr1 tr2 (w : world) :
  add_invoked tr2 (add_invoked tr1 w) = add_invoked (tr1 ++ tr2) w.
Proof. destruct w; unfold add_invoked; simpl. by rewrite app_assoc. Qed.

End MonadFacts.

(** ** The registry *)

Section RegistryFacts.
Context `{Host}.

Lemma forEach_call (l : list handle) (data : Data) (w : world) :
  forEach (fun c => call c data) l w
  = (completes l data, add_invoked (delivered l data) w).
Proof.
  revert w. induction l as [|c l IH]; intros w; simpl.
  - unfold ret. by rewrite add_invoked_nil.
  - unfold bind at 1, call, bind, modify. simpl.
    change (log_invoked c data w) with (add_invoked [(c, data)] w).
    destruct (behaviour c data); simpl.
    + rewrite IH. by rewrite add_invoked_app.
    + reflexivity.
Qed.

Lemma in_object_own {A} (name : string) (m : gmap string A) (x : A) :
  m !! name = Some x -> in_object name m = true.
Proof. intros Hm. unfold in_object. by rewrite Hm. Qed.

Lemma in_object_absent {A} (name : string) (m : gmap string A) :
  m !! name = None -> in_object name m = inherited name.
Proof.
  intros Hm. unfold in_object. rewrite Hm.
  rewrite bool_decide_eq_false_2; [done|]. by intros [? ?].
Qed.

Lemma broadcast_run (topic : string) (data : Data) (w : world) :
  broadcast topic data w
  = (broadcast_completes topic data w,
     add_invoked (delivered (subscribers topic w) data) w).
Proof.
  unfold broadcast, bind, gets, subscribers, broadcast_completes. simpl.
  destruct (callbacks w !! topic) as [l|] eqn:Hl; simpl.
  - rewrite (in_object_own _ _ _ Hl). apply forEach_call.
  - rewrite (in_object_absent _ _ Hl).
    destruct (inherited topic); unfold ret, throw; by rewrite add_invoked_nil.
Qed.

(** [on] registers, unless the topic is an inherited name without an
    own entry: then it raises and changes nothing. *)
Lemma on_run (topic : string) (c : handle) (w : world) :
  on topic c w
  = match registry_call_completes topic w with
    | Ok _ =>
        (Ok tt, with_callbacks (insert topic (subscribers topic w ++ [c])) w)
    | Exn err => (Exn err, w)
    end.
Proof.
  unfold on, bind, gets, modify, ret, throw, subscribers, registry_call_completes.
  simpl.
  destruct (callbacks w !! topic) as [l|] eqn:E; simpl.
  - rewrite (in_object_own _ _ _ E). simpl. rewrite E. f_equal.
    destruct w as [cbs q st wi inv fi po wa]; unfold with_callbacks; simpl in *.
    f_equal. apply map_eq. intros k. destruct (decide (k = topic)) as [->|Hne].
    + by rewrite lookup_alter_eq, lookup_insert_eq, E.
    + by rewrite lookup_alter_ne, lookup_insert_ne.
  - rewrite (in_object_absent _ _ E). destruct (inherited topic); simpl.
    + by rewrite E.
    + rewrite lookup_insert_eq. f_equal.
      destruct w as [cbs q st wi inv fi po wa]; unfold with_callbacks; simpl in *.
      f_equal. apply map_eq. intros k. destruct (decide (k = topic)) as [->|Hne].
      * by rewrite lookup_alter_eq, !lookup_insert_eq.
      * by rewrite lookup_alter_ne, !lookup_insert_ne.
Qed.

Lemma on_run_ok (topic : string) (c : handle) (w : world) :
  registry_call_completes topic w = Ok tt ->
  on topic c w
  = (Ok tt, with_callbacks (insert topic (subscribers topic w ++ [c])) w).
Proof. intros Hok. by rewrite on_run, Hok. Qed.

Lemma registry_call_completes_own (topic : string) (w : world) (l : list handle) :
  callbacks w !! topic = Some l -> registry_call_completes topic w = Ok tt.
Proof. intros Hl. unfold registry_call_completes. by rewrite Hl. Qed.

Lemma registry_call_completes_plain (topic : string) (w : world) :
  inherited topic = false -> registry_call_completes topic w = Ok tt.
Proof.
  intros Hi. unfold registry_call_completes. rewrite Hi.
  by destruct (callbacks w !! topic).
Qed.

End RegistryFacts.

Section DeliveryFacts.
Context `{Host}.

Lemma delivered_app (l1 l2 : list handle) (data : Data) :
  Forall (fun c => behaviour c data = Returns) l1 ->
  delivered (l1 ++ l2) data = ((fun c => (c, data)) <$> l1) ++ delivered l2 data.
Proof.
  induction 1 as [|c l1 Hc _ IH]; simpl; [done|]. by rewrite Hc, IH.
Qed.

Lemma completes_app (l1 l2 : list handle) (data : Data) :
  Forall (fun c => behaviour c data = Returns) l1 ->
  completes (l1 ++ l2) data = completes l2 data.
Proof.
  induction 1 as [|c l1 Hc _ IH]; simpl; [done|]. by rewrite Hc.
Qed.

Lemma delivered_all (l : list handle) (data : Data) :
  Forall (fun c => behaviour c data = Returns) l ->
  delivered l data = (fun c => (c, data)) <$> l.
Proof.
  intros Hl. rewrite <- (app_nil_r l) at 1.
  rewrite delivered_app by done. simpl. by rewrite app_nil_r.
Qed.

Lemma completes_all (l : list handle) (data : Data) :
  Forall (fun c => behaviour c data = Returns) l ->
  completes l data = Ok tt.
Proof.
  intros Hl. rewrite <- (app_nil_r l). by rewrite completes_app.
Qed.


Lemma calls_of_tagged (c : handle) (l : list handle) (data : Data) :
  calls_of c ((fun x => (x, data)) <$> l) = length (filter (fun x => x = c) l).
Proof.
  unfold calls_of. induction l as [|x l IH]; [done|].
  rewrite fmap_cons, !filter_cons.
  change ((x, data).1 = c) with (x = c).
  destruct (decide (x = c)); simpl length; by rewrite IH.
Qed.

Lemma calls_of_app (c : handle) (tr1 tr2 : list (handle * Data)) :
  calls_of c (tr1 ++ tr2) = (calls_of c tr1 + calls_of c tr2)%nat.
Proof. unfold calls_of. by rewrite filter_app, length_app. Qed.

Lemma broadcast_completes_own (topic : string) (data : Data) (w : world)
    (l : list handle) :
  callbacks w !! topic = Some l -> broadcast_completes topic data w = completes l data.
Proof. intros Hl. unfold broadcast_completes. by rewrite Hl. Qed.

Lemma broadcast_completes_plain (topic : string) (data : Data) (w : world) :
  inherited topic = false ->
  broadcast_completes topic data w = completes (subscribers topic w) data.
Proof.
  intros Hi. unfold broadcast_completes, subscribers. rewrite Hi.
  by destruct (callbacks w !! topic).
Qed.

Lemma register_run (topic : string) (cs : list handle) (w : world) :
  inherited topic = false ->
  outcome (register topic cs) w = Ok tt
  /\ subscribers topic (exec (register topic cs) w) = subscribers topic w ++ cs
  /\ invoked (exec (register topic cs) w) = invoked w.
Proof.
  intros Hplain. revert w. induction cs as [|c cs IH]; intros w.
  - unfold register, exec, outcome; simpl. by rewrite app_nil_r.
  - unfold register, exec, outcome in *. simpl. unfold bind.
    rewrite on_run_ok by (by apply registry_call_completes_plain).
    destruct (IH (with_callbacks (insert topic (subscribers topic w ++ [c])) w))
      as (Ho & Hs & Hi).
    split; [exact Ho|]. split.
    + rewrite Hs. unfold subscribers at 1. simpl.
      rewrite lookup_insert_eq. simpl. by rewrite <- app_assoc.
    + rewrite Hi. reflexivity.
Qed.

End DeliveryFacts.

(** C7 (as the program has it) -- Registry delivery.  On a topic that
    is not one of the names every object inherits, after the callbacks
    [cs] have been registered with [on], one after the other, a
    broadcast on that topic calls every registered callback with the
    broadcast data, in registration order, once per registration: a
    callback registered [n] times is called [n] times, provided the
    registered callbacks return (a callback is a function of the host
    that does not call [on] or [off] while the broadcast runs). *)
Theorem registry_delivery `{Host} (topic : string) (cs : list handle)
    (data : Data) (w : world) :
  let w1 := exec (register topic cs) w in
  let registered := subscribers topic w ++ cs in
  inherited topic = false ->
  Forall (fun c => behaviour c data = Returns) registered ->
  outcome (register topic cs) w = Ok tt
  /\ outcome (broadcast topic data) w1 = Ok tt
  /\ invoked (exec (broadcast topic data) w1)
     = invoked w ++ ((fun c => (c, data)) <$> registered)
  /\ forall c, calls_of c (invoked (exec (broadcast topic data) w1))
               = (calls_of c (invoked w)
                  + length (filter (fun x => x = c) registered))%nat.
Proof.
  intros w1 registered Hplain Hret.
  destruct (register_run topic cs w Hplain) as (Ho & Hs & Hi).
  fold w1 in Hs, Hi. fold registered in Hs.
  assert (Htr : invoked (exec (broadcast topic data) w1)
                = invoked w ++ ((fun c => (c, data)) <$> registered)).
  { unfold exec. rewrite broadcast_run. simpl. rewrite Hs, Hi.
    by rewrite delivered_all. }
  split; [exact Ho|]. split; [|split; [exact Htr|]].
  - unfold outcome. rewrite broadcast_run. simpl.
    rewrite broadcast_completes_plain, Hs by done. by apply completes_all.
  - intros c. by rewrite Htr, calls_of_app, calls_of_tagged.
Qed.

Lemma registry_delivery_witness :
  let w : @world Demo.host := Demo.empty_world Demo.browser in
  let d : @Data Demo.host := Demo.PInt 7 in
  inherited "t" = false
  /\ Forall (fun c => behaviour c d = Returns)
       (subscribers "t" w ++ [1; 2; 1]%nat)
  /\ invoked (exec (broadcast "t" d) (exec (register "t" [1; 2; 1]%nat) w))
     = [(1%nat, d); (2%nat, d); (1%nat, d)].
Proof.
  intros w d.
  assert (Hplain : inherited "t" = false) by reflexivity.
  assert (Hret : Forall (fun c => behaviour c d = Returns)
                   (subscribers "t" w ++ [1; 2; 1]%nat))
    by (repeat constructor).
  split; [exact Hplain|]. split; [exact Hret|].
  exact (proj1 (proj2 (proj2
           (registry_delivery (H := Demo.host) "t" [1; 2; 1]%nat d w Hplain Hret)))).
Defined.

(** C7, counterexample.  The callback 1 is registered twice on a topic,
    with the raising callback 0 between the two registrations: a
    broadcast calls 1 once, not once per registration. *)
Lemma delivery_counterexample :
  let w : @world Demo.host :=
    exec (on "t" 1%nat ;; on "t" 0%nat ;; on "t" 1%nat)
      (Demo.empty_world Demo.browser) in
  let d : @Data Demo.host := Demo.PInt 7 in
  subscribers "t" w = [1%nat; 0%nat; 1%nat]
  /\ invoked (exec (broadcast "t" d) w) = [(1%nat, d); (0%nat, d)]
  /\ calls_of 1%nat (invoked (exec (broadcast "t" d) w)) = 1%nat.
Proof.
  intros w d. split; [vm_compute; reflexivity|].
  split; vm_compute; reflexivity.
Qed.

(** C3 (as the program has it) -- A callback that raises ends the
    broadcast.  When the callbacks registered before [c] return and [c]
    raises, [broadcast] calls those callbacks and [c], in order, with
    the data, calls none of the callbacks registered after [c], and
    completes with the exception of [c]: the loop of line 33 has no
    handler around the call. *)
Theorem broadcast_stops_at_raise `{Host} (topic : string) (data : Data)
    (w : world) (l1 : list handle) (c : handle) (l2 : list handle) :
  callbacks w !! topic = Some (l1 ++ c :: l2) ->
  Forall (fun x => behaviour x data = Returns) l1 ->
  behaviour c data = Raises ->
  broadcast topic data w
  = (Exn (Thrown c), add_invoked ((fun x => (x, data)) <$> (l1 ++ [c])) w).
Proof.
  intros Hl Hret Hc.
  rewrite broadcast_run, (broadcast_completes_own _ _ _ _ Hl).
  unfold subscribers. rewrite Hl. simpl.
  rewrite completes_app, delivered_app by done. simpl. rewrite Hc.
  by rewrite fmap_app.
Qed.

Lemma broadcast_stops_at_raise_witness :
  let w : @world Demo.host :=
    exec (on "t" 1%nat ;; on "t" 0%nat ;; on "t" 2%nat) (Demo.empty_world Demo.browser) in
  let d : @Data Demo.host := Demo.PInt 7 in
  callbacks w !! "t"%string = Some ([1%nat] ++ 0%nat :: [2%nat])
  /\ Forall (fun x => behaviour x d = Returns) [1%nat]
  /\ behaviour 0%nat d = Raises
  /\ broadcast "t" d w
     = (Exn (Thrown 0%nat), add_invoked [(1%nat, d); (0%nat, d)] w).
Proof.
  intros w d.
  assert (Hl : callbacks w !! "t"%string = Some ([1%nat] ++ 0%nat :: [2%nat]))
    by (vm_compute; reflexivity).
  assert (Hret : Forall (fun x => behaviour x d = Returns) [1%nat])
    by (repeat constructor).
  assert (Hc : behaviour 0%nat d = Raises) by reflexivity.
  split; [exact Hl|]. split; [exact Hret|]. split; [exact Hc|].
  exact (broadcast_stops_at_raise "t" d w [1%nat] 0%nat [2%nat] Hl Hret Hc).
Defined.

(** C3, counterexample.  With the raising callback 0 registered before
    the callback 1 on one topic, a broadcast calls 0 and never calls 1,
    although 1 is registered after the callback that raised. *)
Lemma isolation_counterexample :
  let w : @world Demo.host :=
    exec (on "t" 0%nat ;; on "t" 1%nat) (Demo.empty_world Demo.browser) in
  let d : @Data Demo.host := Demo.PInt 7 in
  subscribers "t" w = [0%nat; 1%nat]
  /\ behaviour 0%nat d = Raises
  /\ invoked (exec (broadcast "t" d) w) = [(0%nat, d)]
  /\ (1%nat, d) ∉ invoked (exec (broadcast "t" d) w).
Proof.
  intros w d.
  assert (Hi : invoked (exec (broadcast "t" d) w) = [(0%nat, d)])
    by (vm_compute; reflexivity).
  split; [vm_compute; reflexivity|]. split; [reflexivity|]. split; [exact Hi|].
  rewrite Hi. intros Hin%list_elem_of_singleton. discriminate Hin.
Qed.

(** ** Unsubscribing *)

Section OffFacts.
Context `{Host}.

Lemma indexOf_first (c : handle) (l1 l2 : list handle) :
  c ∉ l1 -> indexOf c (l1 ++ c :: l2) = Z.of_nat (length l1).
Proof.
  intros Hc. unfold indexOf.
  assert (Hnone : list_find (fun y => y = c) l1 = None).
  { apply list_find_None, Forall_forall. intros y Hy ->. by apply Hc. }
  rewrite list_find_app_r by done. simpl.
  rewrite decide_True by done. simpl. reflexivity.
Qed.

Lemma indexOf_absent (c : handle) (l : list handle) :
  c ∉ l -> indexOf c l = -1.
Proof.
  intros Hc. unfold indexOf.
  assert (Hnone : list_find (fun y => y = c) l = None).
  { apply list_find_None, Forall_forall. intros y Hy ->. by apply Hc. }
  by rewrite Hnone.
Qed.

Lemma splice_one_at (l1 l2 : list handle) (c : handle) :
  splice (Z.of_nat (length l1)) 1 (l1 ++ c :: l2) = l1 ++ l2.
Proof.
  unfold splice. rewrite length_app. simpl length.
  destruct (Z.ltb_spec (Z.of_nat (length l1)) 0) as [Hneg|_]; [lia|].
  replace (Z.to_nat (Z.min (Z.of_nat (length l1))
                       (Z.of_nat (length l1 + S (length l2)))))
    with (length l1) by lia.
  rewrite take_app_length.
  replace (Z.to_nat _) with (length l1 + 1)%nat by lia.
  rewrite drop_app_add'; [|done]. reflexivity.
Qed.

(** [splice(-1, 1)] drops the last element. *)
Lemma splice_minus_one (l : list handle) :
  splice (-1) 1 l = removelast l.
Proof.
  unfold splice. change (-1 <? 0) with true. cbv iota.
  induction l as [|x l _] using rev_ind; [reflexivity|].
  rewrite removelast_last, length_app. simpl length.
  replace (Z.to_nat (Z.max _ 0)) with (length l) by lia.
  rewrite take_app_length.
  replace (Z.to_nat _) with (length l + 1)%nat by lia.
  rewrite drop_app_add'; [|done]. simpl. by rewrite app_nil_r.
Qed.

Lemma off_function_run (topic : string) (c : handle) (w : world) (l : list handle) :
  callbacks w !! topic = Some l ->
  off topic (Some c) w
  = (Ok tt, with_callbacks (after_off topic (splice (indexOf c l) 1 l)) w).
Proof.
  intros Hl. unfold off, bind, gets, modify, ret. simpl.
  rewrite (in_object_own _ _ _ Hl), Hl. simpl.
  rewrite lookup_alter_eq, Hl. simpl.
  destruct w as [cbs q st wi inv fi po wa]; unfold with_callbacks; simpl in *.
  destruct (splice (indexOf c l) 1 l) as [|x l'] eqn:E; simpl.
  - f_equal. f_equal. apply map_eq. intros k.
    destruct (decide (k = topic)) as [->|Hne].
    + by rewrite !lookup_delete_eq.
    + by rewrite !lookup_delete_ne, lookup_alter_ne.
  - f_equal. f_equal. apply map_eq. intros k.
    destruct (decide (k = topic)) as [->|Hne].
    + by rewrite lookup_alter_eq, lookup_insert_eq, Hl; simpl; rewrite E.
    + by rewrite lookup_alter_ne, lookup_insert_ne.
Qed.

Lemma off_all_run (topic : string) (w : world) :
  off topic None w = (Ok tt, with_callbacks (delete topic) w).
Proof.
  unfold off, bind, gets, modify, ret. simpl.
  destruct (in_object topic (callbacks w)) eqn:Hin; simpl; [done|].
  f_equal. destruct w as [cbs q st wi inv fi po wa]; unfold with_callbacks;
    simpl in *. f_equal. symmetry. apply delete_id.
  unfold in_object in Hin. apply orb_false_iff in Hin as [Hin _].
  apply bool_decide_eq_false in Hin. by apply eq_None_not_Some.
Qed.

(** [off] on a name that is no property of the registry *)
Lemma off_unknown_run (topic : string) (cb : option handle) (w : world) :
  in_object topic (callbacks w) = false -> off topic cb w = (Ok tt, w).
Proof.
  intros Hin. unfold off, bind, gets, ret. simpl. by rewrite Hin.
Qed.

(** [off] with a function on an inherited name without an own entry *)
Lemma off_inherited_run (topic : string) (c : handle) (w : world) :
  callbacks w !! topic = None -> inherited topic = true ->
  off topic (Some c) w = (Exn TypeError, w).
Proof.
  intros Hl Hi. unfold off, bind, gets, throw. simpl.
  by rewrite (in_object_absent _ _ Hl), Hi, Hl.
Qed.

(** Without an own entry [off] changes nothing, however it completes. *)
Lemma off_unowned_exec (topic : string) (cb : option handle) (w : world) :
  callbacks w !! topic = None -> exec (off topic cb) w = w.
Proof.
  intros Hl. unfold exec. destruct cb as [c|].
  - destruct (inherited topic) eqn:Hi.
    + by rewrite off_inherited_run.
    + rewrite off_unknown_run; [done|]. by rewrite (in_object_absent _ _ Hl).
  - rewrite off_all_run. simpl.
    destruct w as [cbs q st wi inv fi po wa]; unfold with_callbacks; simpl in *.
    f_equal. by apply delete_id.
Qed.

Lemma subscribers_after_off (topic : string) (l' : list handle) (w : world) :
  subscribers topic (with_callbacks (after_off topic l') w) = l'.
Proof.
  unfold subscribers. destruct l' as [|x l']; simpl.
  - by rewrite lookup_delete_eq.
  - by rewrite lookup_insert_eq.
Qed.


End OffFacts.

(** The registry after [off(topic, c)] when [c] is not registered on a
    known topic: [indexOf] answers [-1] and [splice(-1, 1)] removes the
    last registered callback. *)
Lemma off_unregistered_callback `{Host} (topic : string) (c : handle)
    (w : world) (l : list handle) :
  callbacks w !! topic = Some l -> c ∉ l ->
  off topic (Some c) w
  = (Ok tt, with_callbacks (after_off topic (removelast l)) w).
Proof.
  intros Hl Hc. rewrite (off_function_run topic c w l Hl).
  by rewrite indexOf_absent, splice_minus_one.
Qed.

Example off_unregistered_callback_example :
  let w : @world Demo.host :=
    exec (on "t" 1%nat ;; on "t" 2%nat ;; off "t" (Some 3%nat))
      (Demo.empty_world Demo.browser) in
  subscribers "t" w = [1%nat].
Proof. vm_compute. reflexivity. Qed.




(** ** The storage transport *)

Import localStorageApiFactory.

Section KeyFacts.

Lemma substring_all (s : string) : substring 0 (String.length s) s = s.
Proof. induction s as [|a s IH]; simpl; [done|]. by rewrite IH. Qed.

Lemma substring_none (s : string) : substring 0 0 s = ""%string.
Proof. by destruct s. Qed.

Lemma prefix_append (p t : string) : String.prefix p (p +:+ t) = true.
Proof.
  induction p as [|a p IH]; simpl; [by destruct t|].
  destruct (ascii_dec a a); [exact IH|done].
Qed.

Lemma index_append (p t : string) : String.index 0 p (p +:+ t) = Some 0%nat.
Proof.
  destruct (p +:+ t) as [|a s] eqn:E.
  - destruct p; [reflexivity|discriminate E].
  - change (index 0 p (String a s))
      with (if String.prefix p (String a s) then Some 0%nat
            else match index 0 p s with
                 | Some n => Some (S n)
                 | None => None
                 end).
    by rewrite <- E, prefix_append.
Qed.

Lemma substring_after (p t : string) :
  substring (String.length p) (String.length (p +:+ t) - String.length p) (p +:+ t)
  = t.
Proof.
  induction p as [|a p IH]; simpl.
  - rewrite Nat.sub_0_r. apply substring_all.
  - exact IH.
Qed.

Lemma key_starts_with_prefix (topic : string) :
  string_indexOf prefix (prefix +:+ topic) = 0.
Proof. unfold string_indexOf. by rewrite index_append. Qed.

(** [key.replace(prefix, '')] gives the topic back. *)
Lemma topic_of_key (topic : string) :
  replace prefix "" (prefix +:+ topic) = topic.
Proof.
  unfold replace. rewrite index_append, substring_none.
  rewrite Nat.add_0_l.
  change ("" +:+ "" +:+ ?x)%string with x.
  apply substring_after.
Qed.

End KeyFacts.

Section SendFacts.
Context `{Host}.

Lemma send_free_run (topic : string) (data : Data) (includeSelf : bool)
    (w : world) (s : string) :
  JSON_stringify data = Some s ->
  storage w !! (prefix +:+ topic) = None ->
  send topic data includeSelf w
  = (if includeSelf then broadcast_completes topic data w else Ok tt,
     add_invoked
       (if includeSelf then delivered (subscribers topic w) data else [])
       (add_fired [written (prefix +:+ topic) s; removed (prefix +:+ topic) s] w)).
Proof.
  intros Hs Hfree.
  unfold send, getItem, setItem, removeItem, stringify, gets, modify, ret, bind.
  simpl. rewrite Hfree, Hs. simpl. rewrite !Hfree.
  rewrite bool_decide_eq_false_2 by done. simpl.
  unfold with_storage, log_fired. simpl.
  rewrite lookup_insert_eq. simpl.
  rewrite delete_insert_id by done.
  destruct includeSelf.
  - rewrite broadcast_run. f_equal.
    destruct w as [cbs q st wi inv fi po wa];
      unfold add_invoked, add_fired, subscribers; simpl.
    by rewrite <- app_assoc.
  - destruct w as [cbs q st wi inv fi po wa];
      unfold add_invoked, add_fired; simpl.
    by rewrite <- app_assoc, app_nil_r.
Qed.

(** The key of a topic is never an inherited name. *)
Lemma key_not_inherited (topic : string) : inherited (prefix +:+ topic) = false.
Proof. reflexivity. Qed.

Lemma send_busy_run (topic : string) (data : Data) (includeSelf : bool)
    (w : world) (v : string) :
  storage w !! (prefix +:+ topic) = Some v ->
  send topic data includeSelf w
  = (Ok tt, with_queue (enqueued (prefix +:+ topic) data) w).
Proof.
  intros Hbusy.
  unfold send, getItem, gets, modify, ret, throw, bind. simpl.
  rewrite Hbusy. simpl.
  destruct w as [cbs q st wi inv fi po wa]; unfold with_queue, enqueued; simpl.
  destruct (q !! (prefix +:+ topic)) as [l|] eqn:E.
  - rewrite (in_object_own _ _ l) by done. simpl. rewrite ?E.
    do 2 f_equal. apply map_eq. intros k. simpl.
    destruct (decide (k = prefix +:+ topic)) as [->|Hne].
    + by rewrite lookup_alter_eq, lookup_insert_eq, E.
    + by rewrite lookup_alter_ne, lookup_insert_ne.
  - rewrite (in_object_absent _ _ E), key_not_inherited. simpl.
    rewrite lookup_insert_eq.
    do 2 f_equal. apply map_eq. intros k. simpl.
    destruct (decide (k = prefix +:+ topic)) as [->|Hne].
    + by rewrite lookup_alter_eq, !lookup_insert_eq.
    + by rewrite lookup_alter_ne, !lookup_insert_ne.
Qed.

Lemma send_failed_run (topic : string) (data : Data) (includeSelf : bool)
    (w : world) :
  JSON_stringify data = None ->
  storage w !! (prefix +:+ topic) = None ->
  send topic data includeSelf w = (Exn TypeError, w).
Proof.
  intros Hs Hfree.
  unfold send, getItem, stringify, gets, throw, bind. simpl.
  by rewrite Hfree, Hs.
Qed.

(** A send without [includeSelf] calls no callback of its context. *)
Lemma send_silent (topic : string) (data : Data) :
  silent (send topic data false).
Proof.
  intros w. unfold exec.
  destruct (storage w !! (prefix +:+ topic)) as [v|] eqn:Hslot.
  - by rewrite (send_busy_run _ _ _ _ v).
  - destruct (JSON_stringify data) as [s|] eqn:Hs.
    + rewrite (send_free_run _ _ _ _ s) by done. simpl. by rewrite app_nil_r.
    + by rewrite send_failed_run.
Qed.

Lemma direct_send_silent (topic : string) (data : Data) :
  silent (broadcastChannelApiFactory.send topic data false)
  /\ silent (sharedWorkerApiFactory.send topic data false).
Proof. split; intros w; reflexivity. Qed.

(** On the two direct transports [send] hands the envelope to the
    browser and, with [includeSelf], broadcasts locally. *)
Lemma direct_send_run (topic : string) (data : Data) (includeSelf : bool)
    (w : world) :
  let after :=
    add_invoked (if includeSelf then delivered (subscribers topic w) data else [])
      (log_posted topic data w) in
  exec (broadcastChannelApiFactory.send topic data includeSelf) w = after
  /\ exec (sharedWorkerApiFactory.send topic data includeSelf) w = after.
Proof.
  unfold exec, broadcastChannelApiFactory.send, sharedWorkerApiFactory.send,
    broadcastChannelApiFactory.postMessage, sharedWorkerApiFactory.postMessage,
    modify, ret, bind.
  destruct includeSelf; simpl.
  - by rewrite broadcast_run.
  - by rewrite add_invoked_nil.
Qed.

End SendFacts.

(** C5 -- Storage-Relay send protocol.  [send] computes the key
    [prefix + topic].  On an empty slot it writes the text of the data
    under that key (so that the slot holds it), removes it again in the
    same call, and broadcasts locally when [includeSelf] is set: the
    other contexts are notified of one write and one removal, the store
    is the same when [send] returns as it was before, the slot is empty
    again and the pending queue is untouched.  On an occupied slot the
    data is appended to the pending queue of the key, and nothing is
    written, notified or called. *)
Theorem send_protocol `{Host} (topic : string) (data : Data)
    (includeSelf : bool) (w : world) (s : string) :
  JSON_stringify data = Some s ->
  let K := prefix +:+ topic in
  let w' := exec (send topic data includeSelf) w in
  match storage w !! K with
  | None =>
      storage (exec (setItem K s) w) !! K = Some s
      /\ w' = add_invoked
                (if includeSelf then delivered (subscribers topic w) data else [])
                (add_fired [written K s; removed K s] w)
      /\ storage w' = storage w
      /\ storage w' !! K = None
      /\ queue w' = queue w
  | Some _ =>
      w' = with_queue (enqueued K data) w
      /\ queue w' !! K = Some (default [] (queue w !! K) ++ [data])
      /\ storage w' = storage w
      /\ fired w' = fired w
      /\ invoked w' = invoked w
  end.
Proof.
  intros Hs K w'. subst w'. unfold exec.
  destruct (storage w !! K) as [v|] eqn:Hslot.
  - rewrite (send_busy_run topic data includeSelf w v Hslot). simpl.
    repeat split. unfold enqueued. by rewrite lookup_insert_eq.
  - rewrite (send_free_run topic data includeSelf w s Hs Hslot). simpl.
    split; [|by repeat split].
    unfold setItem, gets, modify, ret, bind. simpl. fold K. rewrite Hslot.
    rewrite bool_decide_eq_false_2 by done. simpl. by rewrite lookup_insert_eq.
Qed.

Lemma send_protocol_witness :
  let w : @world Demo.host :=
    exec (on "score" 1%nat) (Demo.empty_world Demo.browser) in
  let d : @Data Demo.host := Demo.PInt 7 in
  JSON_stringify d = Some "7"%string
  /\ exec (send "score" d true) w
     = add_invoked [(1%nat, d)]
         (add_fired [written "__across-tabs:score" "7";
                     removed "__across-tabs:score" "7"] w).
Proof.
  intros w d.
  assert (Hs : JSON_stringify d = Some "7"%string) by reflexivity.
  split; [exact Hs|].
  exact (proj1 (proj2 (send_protocol "score" d true w "7" Hs))).
Defined.

(** ** The two listeners *)

Section ListenerFacts.
Context `{Host}.

Lemma silent_ret {A} (a : A) : silent (ret a).
Proof. by intros w. Qed.

Lemma silent_throw {A} (e : error) : silent (throw (A := A) e).
Proof. by intros w. Qed.

Lemma silent_gets {A} (f : world -> A) : silent (gets f).
Proof. by intros w. Qed.

Lemma silent_with_queue f : silent (modify (with_queue f)).
Proof. by intros w. Qed.

Lemma silent_bind {A B} (m : M A) (k : A -> M B) :
  silent m -> (forall a, silent (k a)) -> silent (bind m k).
Proof.
  intros Hm Hk w. specialize (Hm w). unfold exec, bind in *.
  destruct (m w) as [[a|e] w1]; simpl in *; [|done].
  rewrite <- Hm. apply Hk.
Qed.

(** Draining never calls a callback of the context that drains. *)
Lemma departure_silent (e : StorageEvent) : silent (departure_listener e).
Proof.
  unfold departure_listener.
  destruct (_ && _); [|apply silent_ret].
  apply silent_bind; [apply silent_gets|]. intros q.
  destruct (in_object _ q); [|apply silent_ret].
  destruct (q !! _) as [l|]; [|apply silent_throw].
  destruct (shift undefined l) as [data rest].
  apply silent_bind; [apply silent_with_queue|]. intros _.
  apply silent_bind; [apply send_silent|]. intros _.
  apply silent_bind; [apply silent_gets|]. intros q'.
  destruct (q' !! _) as [l'|]; [|apply silent_throw].
  destruct (bool_decide _); [apply silent_with_queue|apply silent_ret].
Qed.

(** The departure of a slot finds nothing to drain unless the queue
    has an entry under the bare topic: the state stays as it is (the
    listener raises when the bare topic is an inherited name). *)
Lemma departure_unqueued (topic : string) (old : option string) (w : world) :
  queue w !! topic = None ->
  exec (departure_listener
          {| key := prefix +:+ topic; oldValue := old; newValue := None |}) w
  = w.
Proof.
  intros Hq. unfold exec, departure_listener; simpl.
  rewrite key_starts_with_prefix, topic_of_key. simpl.
  unfold gets, bind. simpl. rewrite Hq.
  by destruct (in_object topic (queue w)).
Qed.

Lemma departure_of_written (k s : string) (w : world) :
  departure_listener (written k s) w = (Ok tt, w).
Proof.
  unfold departure_listener; simpl. by rewrite andb_false_r.
Qed.

Lemma arrival_of_removed (k s : string) (w : world) :
  arrival_listener (removed k s) w = (Ok tt, w).
Proof.
  unfold arrival_listener; simpl. by rewrite andb_false_r.
Qed.

Lemma arrival_of_written (topic s : string) (data : Data) (w : world) :
  JSON_parse s = Some data ->
  arrival_listener (written (prefix +:+ topic) s) w = broadcast topic data w.
Proof.
  intros Hp. unfold arrival_listener; simpl.
  rewrite key_starts_with_prefix, topic_of_key. simpl.
  unfold parse; simpl. rewrite Hp. reflexivity.
Qed.

Lemma dispatch_written (topic s : string) (data : Data) (w : world) :
  JSON_parse s = Some data ->
  exec (dispatch (written (prefix +:+ topic) s)) w
  = add_invoked (delivered (subscribers topic w) data) w.
Proof.
  intros Hp. unfold dispatch, exec. simpl.
  rewrite departure_of_written. simpl.
  rewrite (arrival_of_written topic s data w Hp), broadcast_run. reflexivity.
Qed.

Lemma dispatch_removed_invoked (k s : string) (w : world) :
  invoked (exec (dispatch (removed k s)) w) = invoked w.
Proof.
  unfold dispatch, exec at 1 3. simpl. rewrite arrival_of_removed. simpl.
  apply departure_silent.
Qed.

Lemma dispatch_removed_unqueued (topic s : string) (w : world) :
  queue w !! topic = None ->
  exec (dispatch (removed (prefix +:+ topic) s)) w = w.
Proof.
  intros Hq. unfold dispatch, exec at 1 3. simpl. rewrite arrival_of_removed. simpl.
  unfold removed. by apply departure_unqueued.
Qed.

End ListenerFacts.

(** C8 -- Round trip.  A context sends [data] on a topic whose slot is
    free; for a payload that [JSON.parse] recovers from its
    [JSON.stringify] text, every other context, handling the events the
    send fired, calls the subscribers it has for that topic with a
    value equal to [data], and calls nothing else.  On the two direct
    transports the envelope handed to the browser carries the topic and
    [data] themselves, and the context that receives the envelope
    broadcasts that topic and that value. *)
Theorem storage_round_trip `{Host} (topic : string) (data : Data) (s : string)
    (includeSelf : bool) (sender receiver : world) :
  JSON_stringify data = Some s ->
  JSON_parse s = Some data ->
  storage sender !! (prefix +:+ topic) = None ->
  emitted (send topic data includeSelf) sender
  = [written (prefix +:+ topic) s; removed (prefix +:+ topic) s]
  /\ invoked (deliver (emitted (send topic data includeSelf) sender) receiver)
     = invoked receiver ++ delivered (subscribers topic receiver) data
  /\ posted (exec (broadcastChannelApiFactory.send topic data includeSelf) sender)
     = posted sender ++ [(topic, data)]
  /\ posted (exec (sharedWorkerApiFactory.send topic data includeSelf) sender)
     = posted sender ++ [(topic, data)]
  /\ invoked (exec (broadcastChannelApiFactory.onmessage (topic, data)) receiver)
     = invoked receiver ++ delivered (subscribers topic receiver) data
  /\ invoked (exec (sharedWorkerApiFactory.onmessage (topic, data)) receiver)
     = invoked receiver ++ delivered (subscribers topic receiver) data.
Proof.
  intros Hs Hp Hfree.
  assert (Hem : emitted (send topic data includeSelf) sender
                = [written (prefix +:+ topic) s; removed (prefix +:+ topic) s]).
  { unfold emitted, exec. rewrite (send_free_run _ _ _ _ s Hs Hfree). simpl.
    by rewrite drop_app_length. }
  split; [exact Hem|]. split.
  - rewrite Hem. unfold deliver. simpl foldl.
    by rewrite dispatch_removed_invoked, (dispatch_written topic s data receiver Hp).
  - destruct (direct_send_run topic data includeSelf sender) as [-> ->].
    repeat split.
    + unfold exec, broadcastChannelApiFactory.onmessage. simpl.
      by rewrite broadcast_run.
    + unfold exec, sharedWorkerApiFactory.onmessage. simpl.
      by rewrite broadcast_run.
Qed.

(** The codec of the concrete host recovers every payload but
    [undefined] from its text. *)
Lemma demo_codec_round_trip (p : Demo.payload) :
  p <> Demo.PUndefined ->
  Demo.parse (default ""%string (Demo.stringify p)) = Some p.
Proof.
  intros Hp. destruct p as [| |[|]|z]; try reflexivity; [done|].
  unfold Demo.parse, Demo.stringify. simpl.
  rewrite NilEmpty.isi, DecimalZ.of_to, String.eqb_refl. reflexivity.
Qed.

Example demo_codec_rejects_undefined :
  Demo.parse (default ""%string (Demo.stringify Demo.PUndefined)) = None.
Proof. reflexivity. Qed.

Lemma storage_round_trip_witness :
  let d : @Data Demo.host := Demo.PInt (-42) in
  let sender : @world Demo.host := Demo.empty_world Demo.browser in
  let receiver : @world Demo.host :=
    exec (on "score" 1%nat ;; on "other" 2%nat) (Demo.empty_world Demo.browser) in
  JSON_stringify d = Some "-42"%string
  /\ JSON_parse "-42" = Some d
  /\ storage sender !! (prefix +:+ "score") = None
  /\ invoked (deliver (emitted (send "score" d false) sender) receiver)
     = [(1%nat, d)].
Proof.
  intros d sender receiver.
  assert (Hs : JSON_stringify d = Some "-42"%string) by reflexivity.
  assert (Hp : JSON_parse "-42" = Some d) by reflexivity.
  assert (Hfree : storage sender !! (prefix +:+ "score") = None) by reflexivity.
  split; [exact Hs|]. split; [exact Hp|]. split; [exact Hfree|].
  exact (proj1 (proj2 (storage_round_trip "score" d "-42" false sender receiver
                         Hs Hp Hfree))).
Defined.

(** C1 -- Draining of the pending queue.  The program files a delayed
    payload under the key [prefix + topic] (line 141) and, when the slot
    of that key departs, looks for it under the bare topic (lines
    158-162).  Here the slot of topic [t] is held by another context
    while [a] and then [b] are sent: both are queued; the slot departs
    and the context handles the event: nothing is popped, nothing is
    sent, and [a] and [b] stay queued. *)
Lemma pending_queue_not_drained :
  let K : string := "__across-tabs:t" in
  let a : @Data Demo.host := Demo.PInt 1 in
  let b : @Data Demo.host := Demo.PInt 2 in
  let w0 := with_storage (insert K "0"%string) (Demo.empty_world Demo.browser) in
  let w1 := exec (send "t" a false ;; send "t" b false) w0 in
  let w2 := with_storage (delete K) w1 in
  let w3 := exec (dispatch (removed K "0")) w2 in
  queue w1 !! K = Some [a; b]
  /\ queue w1 !! "t"%string = None
  /\ storage w2 !! K = None
  /\ w3 = w2
  /\ queue w3 !! K = Some [a; b]
  /\ fired w3 = [].
Proof.
  intros K a b w0 w1 w2 w3.
  assert (Hq : queue w2 !! "t"%string = None) by (vm_compute; reflexivity).
  assert (Hw : w3 = w2) by exact (dispatch_removed_unqueued "t" "0" w2 Hq).
  split; [vm_compute; reflexivity|]. split; [vm_compute; reflexivity|].
  split; [vm_compute; reflexivity|]. split; [exact Hw|]. rewrite Hw.
  split; vm_compute; reflexivity.
Qed.

(** C4 -- [includeSelf] on a delayed send.  The context has a
    subscriber on topic [t]; the slot of [t] is held by another context
    while [send('t', d, true)] runs: the payload is queued without the
    flag and the subscriber is not called.  Neither the departure of
    the slot nor the departure that does drain the entry (the slot of
    the topic named like the key) calls it: line 159 re-sends without a
    third argument. *)
Lemma queued_send_drops_includeSelf :
  let K : string := "__across-tabs:t" in
  let d : @Data Demo.host := Demo.PInt 7 in
  let w0 := with_storage (insert K "0"%string)
              (exec (on "t" 1%nat) (Demo.empty_world Demo.browser)) in
  let w1 := exec (send "t" d true) w0 in
  let w2 := with_storage (delete K) w1 in
  let w3 := deliver [removed K "0"; removed (prefix +:+ K) "0"] w2 in
  subscribers "t" w0 = [1%nat]
  /\ invoked w1 = []
  /\ queue w1 !! K = Some [d]
  /\ queue w3 !! K = None
  /\ fired w3 = [written (prefix +:+ K) "7"; removed (prefix +:+ K) "7"]
  /\ invoked w3 = [].
Proof. vm_compute. repeat split; reflexivity. Qed.

(** ** The fallback transport and the selector *)

(** C9 (as the program has it) -- Fallback transport.  When the
    selector installs the fallback, each of [on], [off] and [send]
    returns normally and changes nothing but the console: it writes one
    warning when the global [window] is defined, and no warning when
    it is not (line 181 tests [typeof window] before warning). *)
Theorem fallback_behaviour `{Host} (w : world) (topic : string) (cb : handle)
    (cbo : option handle) (data : Data) (includeSelf : bool) :
  selector (window w) = EmptyApi ->
  let api := instantiate (selector (window w)) in
  let after :=
    match window w with
    | Some _ => log_warned "across-tabs messaging is not supported." w
    | None => w
    end in
  api_on api topic cb w = (Ok tt, after)
  /\ api_off api topic cbo w = (Ok tt, after)
  /\ api_send api topic data includeSelf w = (Ok tt, after).
Proof.
  intros Hsel. rewrite Hsel. simpl.
  unfold emptyApiFactory.noop, gets, modify, ret, bind. simpl.
  by destruct (window w).
Qed.

Lemma fallback_behaviour_witness :
  let w : @world Demo.host := Demo.empty_world (Some ∅) in
  let d : @Data Demo.host := Demo.PInt 1 in
  selector (window w) = EmptyApi
  /\ api_send (instantiate (selector (window w))) "x" d false w
     = (Ok tt, log_warned "across-tabs messaging is not supported." w).
Proof.
  intros w d.
  assert (Hsel : selector (window w) = EmptyApi) by reflexivity.
  split; [exact Hsel|].
  exact (proj2 (proj2 (fallback_behaviour w "x" 0%nat None d false Hsel))).
Defined.

(** C9, counterexample.  Outside a browser [window] is undefined: the
    selector installs the fallback, and [send('x', 1)] returns without
    any warning. *)
Lemma fallback_counterexample :
  let w : @world Demo.host := Demo.empty_world None in
  let d : @Data Demo.host := Demo.PInt 1 in
  selector (window w) = EmptyApi
  /\ outcome (api_send (instantiate (selector (window w))) "x" d false) w = Ok tt
  /\ warned (exec (api_send (instantiate (selector (window w))) "x" d false) w) = [].
Proof. repeat split. Qed.

Section ToplevelFacts.
Import Toplevel.
Variable win : option (gset string).
Variable globals : gmap string nat.

(** A branch of the selector: the binding lives and dies with its
    block; the factory call remains. *)
Lemma branch_run (t : transport) (st : state) :
  exec_stmt win globals (Block (Const "API" (CallFactory t))) st
  = (Ok tt, {| scopes := scopes st; instantiated := instantiated st ++ [t];
               exports := exports st |}).
Proof. reflexivity. Qed.

Lemma selection_run :
  exec_stmt win globals
    (If TypeofWindowDefined
       (Block
          (If (InWindow "BroadcastChannel")
             (Block (Const "API" (CallFactory BroadcastChannelApi)))
             (If (And FalseLit (InWindow "SharedWorker"))
                (Block (Const "API" (CallFactory SharedWorkerApi)))
                (If (InWindow "localStorage")
                   (Block (Const "API" (CallFactory LocalStorageApi)))
                   (Block (Const "API" (CallFactory EmptyApi)))))))
       (Block (Const "API" (CallFactory EmptyApi))))
    initial
  = (Ok tt, {| scopes := scopes initial; instantiated := [selector win];
               exports := exports initial |}).
Proof.
  destruct win as [props|].
  - cbn [exec_stmt eval_cond]. simpl bool_decide. cbv iota.
    cbn [exec_stmt eval_cond]. unfold selector.
    destruct (in_window "BroadcastChannel" props).
    + reflexivity.
    + cbn [andb]. cbv iota.
      destruct (in_window "localStorage" props); reflexivity.
  - reflexivity.
Qed.

Lemma no_module_binding :
  resolve globals "API" (scopes initial) = VObject <$> globals !! "API"%string.
Proof. reflexivity. Qed.

Lemma module_eval_run :
  module_eval win globals
  = match globals !! "API"%string with
    | Some g =>
        (Ok tt, {| scopes := scopes initial; instantiated := [selector win];
                   exports := VObject g |})
    | None =>
        (Exn (ReferenceError "API"),
         {| scopes := scopes initial; instantiated := [selector win];
            exports := exports initial |})
    end.
Proof.
  unfold module_eval, program.
  change (exec_stmt win globals (Seq ?s1 ?s2) initial)
    with (match exec_stmt win globals s1 initial with
          | (Ok _, st') => exec_stmt win globals s2 st'
          | (Exn err, st') => (Exn err, st')
          end).
  rewrite selection_run.
  cbn [exec_stmt eval_expr scopes instantiated exports].
  rewrite no_module_binding. by destruct (globals !! "API"%string).
Qed.

End ToplevelFacts.

Lemma selector_is_policy (win : option (gset string)) : selector win = policy win.
Proof.
  unfold selector, policy, available. destruct win as [props|]; [|done].
  by destruct (in_window "BroadcastChannel" props).
Qed.

(** C6 -- Selector policy.  Evaluating the module calls exactly one
    factory, the one the selector names; the selector follows the
    priority order broadcast primitive, shared store, fallback, and
    never names the Worker-Relay transport, whose branch is guarded by a
    literal [false].  No operation of a transport calls a factory
    again: the list of factory calls belongs to module evaluation
    only. *)
Theorem selector_policy (win : option (gset string)) (globals : gmap string nat) :
  Toplevel.instantiated (snd (Toplevel.module_eval win globals)) = [selector win]
  /\ selector win = policy win
  /\ selector win <> SharedWorkerApi.
Proof.
  split; [|split].
  - rewrite module_eval_run. by destruct (globals !! "API"%string).
  - apply selector_is_policy.
  - rewrite selector_is_policy. unfold policy.
    destruct (available "BroadcastChannel" win); [done|].
    by destruct (available "localStorage" win).
Qed.

(** C10 -- The export of line 206.  When the last statement runs, the
    lexical environments of the module hold no binding named [API]:
    each [const API] was declared in the block of its branch and left
    with it.  The reference is therefore looked up on the global
    object; with no global property of that name the evaluation of the
    module raises a [ReferenceError] and [module.exports] keeps its
    initial empty object, and in no case is the exported value the
    transport the selector instantiated. *)
Theorem export_reference_fails (win : option (gset string))
    (globals : gmap string nat) :
  let r := fst (Toplevel.module_eval win globals) in
  let st := snd (Toplevel.module_eval win globals) in
  Toplevel.resolve globals "API" (Toplevel.scopes st)
  = Toplevel.VObject <$> globals !! "API"%string
  /\ (forall t, Toplevel.exports st <> Toplevel.VApi t)
  /\ match globals !! "API"%string with
     | None =>
         r = Exn (ReferenceError "API")
         /\ Toplevel.exports st = Toplevel.exports Toplevel.initial
     | Some g => r = Ok tt /\ Toplevel.exports st = Toplevel.VObject g
     end.
Proof.
  intros r st. subst r st. rewrite module_eval_run.
  destruct (globals !! "API"%string) as [g|] eqn:Hg;
    cbn [fst snd Toplevel.scopes Toplevel.exports];
    rewrite no_module_binding, Hg; by repeat split.
Qed.

(** * Further properties of the code *)

(** ** The registry *)

Section RegistryLaws.
Context `{Host}.

Lemma with_callbacks_same (f : gmap string (list handle) -> gmap string (list handle))
    (w : world) :
  f (callbacks w) = callbacks w -> with_callbacks f w = w.
Proof. intros Hf. destruct w; unfold with_callbacks; simpl in *. by rewrite Hf. Qed.

Lemma off_run_lookup (topic : string) (cb : option handle) (w : world) (t : string) :
  t <> topic -> callbacks (exec (off topic cb) w) !! t = callbacks w !! t.
Proof.
  intros Hne.
  destruct (callbacks w !! topic) as [l|] eqn:Hl.
  - unfold exec. destruct cb as [c|].
    + rewrite (off_function_run topic c w l Hl). simpl.
      destruct (splice (indexOf c l) 1 l); simpl.
      * by rewrite lookup_delete_ne.
      * by rewrite lookup_insert_ne.
    + rewrite off_all_run. simpl. by rewrite lookup_delete_ne.
  - by rewrite off_unowned_exec.
Qed.

Lemma on_maintains_registry (topic : string) (c : handle) :
  maintains registry_ok (on topic c).
Proof.
  intros w Hw t. unfold exec. rewrite on_run.
  destruct (registry_call_completes topic w); simpl; [|apply Hw].
  destruct (decide (t = topic)) as [->|Hne].
  - rewrite lookup_insert_eq. intros [= Heq]. by destruct (subscribers topic w).
  - rewrite lookup_insert_ne by done. apply Hw.
Qed.

Lemma off_maintains_registry (topic : string) (cb : option handle) :
  maintains registry_ok (off topic cb).
Proof.
  intros w Hw t. destruct (decide (t = topic)) as [->|Hne].
  - unfold exec. destruct (callbacks w !! topic) as [l|] eqn:Hl.
    + destruct cb as [c|].
      * rewrite (off_function_run topic c w l Hl). simpl.
        destruct (splice (indexOf c l) 1 l); simpl.
        -- by rewrite lookup_delete_eq.
        -- by rewrite lookup_insert_eq.
      * rewrite off_all_run. simpl. by rewrite lookup_delete_eq.
    + fold (exec (off topic cb) w). rewrite off_unowned_exec by done. apply Hw.
  - rewrite off_run_lookup by done. apply Hw.
Qed.

End RegistryLaws.

(** X1 -- Subscribing and unsubscribing undo each other.  When the
    callback is not yet registered on the topic, [on(topic, c)]
    followed by [off(topic, c)] leaves the whole state as it was: the
    entry a first subscription created is deleted again, and an
    existing list gets its old contents back.  The sequence returns
    normally, except on an inherited name without an entry of its own,
    where [on] raises a [TypeError] before changing anything. *)
Theorem on_off_round_trip `{Host} (topic : string) (c : handle) (w : world) :
  c ∉ subscribers topic w ->
  callbacks w !! topic <> Some [] ->
  outcome (on topic c ;; off topic (Some c)) w
  = match callbacks w !! topic with
    | Some _ => Ok tt
    | None => if inherited topic then Exn TypeError else Ok tt
    end
  /\ exec (on topic c ;; off topic (Some c)) w = w.
Proof.
  intros Hc Hne. unfold outcome, exec, bind. rewrite on_run.
  change (match callbacks w !! topic with
          | Some _ => Ok tt
          | None => if inherited topic then Exn TypeError else Ok tt
          end) with (registry_call_completes topic w).
  destruct (registry_call_completes topic w) as [[]|err]; simpl; [|done].
  set (w1 := with_callbacks (insert topic (subscribers topic w ++ [c])) w).
  assert (Hl : callbacks w1 !! topic = Some (subscribers topic w ++ [c]))
    by (subst w1; simpl; apply lookup_insert_eq).
  rewrite (off_function_run topic c w1 _ Hl).
  rewrite indexOf_first, splice_one_at, app_nil_r by done. simpl.
  split; [done|]. subst w1.
  destruct w as [cbs q st wi inv fi po wa]; unfold with_callbacks, subscribers in *;
    simpl in *. f_equal.
  destruct (cbs !! topic) as [[|x l]|] eqn:E; simpl; [done| |].
  - rewrite insert_insert_eq. by apply insert_id.
  - by apply delete_insert_id.
Qed.

Lemma on_off_round_trip_witness :
  let w : @world Demo.host :=
    exec (on "t" 1%nat ;; on "u" 2%nat) (Demo.empty_world Demo.browser) in
  (3%nat ∉ subscribers "t" w)
  /\ callbacks w !! "t"%string <> Some []
  /\ outcome (on "t" 3%nat ;; off "t" (Some 3%nat)) w = Ok tt
  /\ exec (on "t" 3%nat ;; off "t" (Some 3%nat)) w = w.
Proof.
  intros w.
  assert (Hc : 3%nat ∉ subscribers "t" w).
  { intros Hin. vm_compute in Hin. apply list_elem_of_singleton in Hin.
    discriminate Hin. }
  assert (Hne : callbacks w !! "t"%string <> Some [])
    by (vm_compute; discriminate).
  split; [exact Hc|]. split; [exact Hne|].
  exact (on_off_round_trip "t" 3%nat w Hc Hne).
Defined.

(** X2 -- Calls on one topic leave the other topics alone.  [on] and
    [off] on a topic, whatever the callback argument, do not change the
    list of any other topic, and change nothing of the state outside
    the registry. *)
Theorem registry_calls_are_local `{Host} (topic other : string) (c : handle)
    (cb : option handle) (w : world) :
  other <> topic ->
  callbacks (exec (on topic c) w) !! other = callbacks w !! other
  /\ callbacks (exec (off topic cb) w) !! other = callbacks w !! other
  /\ (exists f, exec (on topic c) w = with_callbacks f w)
  /\ (exists f, exec (off topic cb) w = with_callbacks f w).
Proof.
  intros Hne. split; [|split; [|split]].
  - unfold exec. rewrite on_run.
    destruct (registry_call_completes topic w); simpl; [|done].
    by rewrite lookup_insert_ne.
  - by apply off_run_lookup.
  - unfold exec. rewrite on_run.
    destruct (registry_call_completes topic w); simpl; [by eexists|].
    exists (fun cbs => cbs). by destruct w.
  - destruct (callbacks w !! topic) as [l|] eqn:Hl.
    + unfold exec. destruct cb as [c'|].
      * eexists. by rewrite (off_function_run topic c' w l Hl).
      * eexists. by rewrite off_all_run.
    + exists (fun cbs => cbs). rewrite off_unowned_exec by done.
      by destruct w.
Qed.

Lemma registry_calls_are_local_witness :
  let w : @world Demo.host :=
    exec (on "t" 1%nat ;; on "u" 2%nat) (Demo.empty_world Demo.browser) in
  "u"%string <> "t"%string
  /\ callbacks (exec (off "t" None) w) !! "u"%string = Some [2%nat].
Proof.
  intros w.
  assert (Hne : "u"%string <> "t"%string) by discriminate.
  split; [exact Hne|].
  exact (proj1 (proj2 (registry_calls_are_local "t" "u" 0%nat None w Hne))).
Defined.

(** X3 -- Unsubscribing a callback that is not registered.  On a known
    topic, [off(topic, c)] with a function [c] that is not in the list
    removes the last registered callback ([indexOf] answers [-1] and
    [splice(-1, 1)] counts from the end); the topic is deleted when
    that was its only callback, and a broadcast afterwards calls the
    list without its last element. *)
Theorem off_unregistered_drops_last `{Host} (topic : string) (c : handle)
    (data : Data) (w : world) (l : list handle) :
  callbacks w !! topic = Some l ->
  c ∉ l ->
  callbacks (exec (off topic (Some c)) w) !! topic
  = match removelast l with
    | [] => None
    | x :: l' => Some (x :: l')
    end
  /\ invoked (exec (off topic (Some c) ;; broadcast topic data) w)
     = invoked w ++ delivered (removelast l) data.
Proof.
  intros Hl Hc. unfold exec, bind.
  rewrite (off_unregistered_callback topic c w l Hl Hc). simpl. split.
  - destruct (removelast l); simpl.
    + by rewrite lookup_delete_eq.
    + by rewrite lookup_insert_eq.
  - rewrite broadcast_run. simpl. by rewrite subscribers_after_off.
Qed.

Lemma off_unregistered_drops_last_witness :
  let w : @world Demo.host :=
    exec (on "t" 1%nat ;; on "t" 2%nat) (Demo.empty_world Demo.browser) in
  let d : @Data Demo.host := Demo.PInt 7 in
  callbacks w !! "t"%string = Some [1%nat; 2%nat]
  /\ (3%nat ∉ [1%nat; 2%nat])
  /\ invoked (exec (off "t" (Some 3%nat) ;; broadcast "t" d) w) = [(1%nat, d)].
Proof.
  intros w d.
  assert (Hl : callbacks w !! "t"%string = Some [1%nat; 2%nat])
    by (vm_compute; reflexivity).
  assert (Hc : 3%nat ∉ [1%nat; 2%nat]).
  { intros Hin. apply elem_of_cons in Hin as [Hin|Hin]; [discriminate Hin|].
    apply list_elem_of_singleton in Hin. discriminate Hin. }
  split; [exact Hl|]. split; [exact Hc|].
  exact (proj2 (off_unregistered_drops_last "t" 3%nat d w [1%nat; 2%nat] Hl Hc)).
Defined.

(** ** Keys and topics *)

Section KeyLaws.

Lemma index_zero_prefix (p k : string) :
  String.index 0 p k = Some 0%nat -> String.prefix p k = true.
Proof.
  destruct k as [|b k'].
  - destruct p; [reflexivity|discriminate].
  - change (index 0 p (String b k'))
      with (if String.prefix p (String b k') then Some 0%nat
            else match index 0 p k' with
                 | Some n => Some (S n)
                 | None => None
                 end).
    destruct (String.prefix p (String b k')); [done|].
    by destruct (index 0 p k').
Qed.

Lemma prefix_split (p k : string) :
  String.prefix p k = true ->
  k = p +:+ substring (String.length p) (String.length k - String.length p) k.
Proof.
  revert k. induction p as [|a p IH]; intros k Hk.
  - simpl. by rewrite Nat.sub_0_r, substring_all.
  - destruct k as [|b k']; [discriminate Hk|]. simpl in Hk.
    destruct (ascii_dec a b) as [->|]; [|discriminate Hk].
    simpl. change (String b p +:+ ?x) with (String b (p +:+ x)).
    f_equal. by apply IH.
Qed.

Lemma starts_with_prefix (k : string) :
  string_indexOf prefix k = 0 <-> String.prefix prefix k = true.
Proof.
  unfold string_indexOf. split.
  - destruct (index 0 prefix k) as [n|] eqn:E; [|discriminate].
    intros Hn. assert (n = 0%nat) as -> by lia. by apply index_zero_prefix.
  - intros Hk. rewrite (prefix_split _ _ Hk). by rewrite index_append.
Qed.

End KeyLaws.

(** X4 -- Keys and topics determine each other.  The key of a topic
    starts with the prefix, and stripping the prefix as the listeners
    do gives the topic back, also when the topic itself contains the
    prefix; conversely every key that passes the test of the listeners
    is the key of the topic they compute from it. *)
Theorem key_topic_round_trip (topic k : string) :
  string_indexOf prefix k = 0 ->
  string_indexOf prefix (prefix +:+ topic) = 0
  /\ replace prefix "" (prefix +:+ topic) = topic
  /\ replace prefix "" (prefix +:+ prefix +:+ topic) = prefix +:+ topic
  /\ prefix +:+ replace prefix "" k = k.
Proof.
  intros Hk. split; [apply key_starts_with_prefix|].
  split; [apply topic_of_key|]. split; [apply topic_of_key|].
  apply starts_with_prefix in Hk. apply prefix_split in Hk.
  rewrite Hk at 1. by rewrite topic_of_key.
Qed.

Lemma key_topic_round_trip_witness :
  string_indexOf prefix "__across-tabs:score" = 0
  /\ replace prefix "" (prefix +:+ "score") = "score"%string
  /\ prefix +:+ replace prefix "" "__across-tabs:score" = "__across-tabs:score"%string.
Proof.
  assert (Hk : string_indexOf prefix "__across-tabs:score" = 0) by reflexivity.
  split; [exact Hk|].
  destruct (key_topic_round_trip "score" "__across-tabs:score" Hk)
    as (_ & Ht & _ & Hkey).
  split; [exact Ht|exact Hkey].
Defined.

(** ** What the storage transport leaves alone *)

Section Frames.
Context `{Host}.

Lemma keeps_ret {A B} (f : world -> B) (a : A) : keeps f (ret a).
Proof. by intros w. Qed.

Lemma keeps_throw {A B} (f : world -> B) (e : error) : keeps f (throw (A := A) e).
Proof. by intros w. Qed.

Lemma keeps_gets {A B} (f : world -> B) (g : world -> A) : keeps f (gets g).
Proof. by intros w. Qed.

Lemma keeps_bind {A B C} (f : world -> C) (m : M A) (k : A -> M B) :
  keeps f m -> (forall a, keeps f (k a)) -> keeps f (bind m k).
Proof.
  intros Hm Hk w. specialize (Hm w). unfold exec, bind in *.
  destruct (m w) as [[a|e] w1]; simpl in *; [|done].
  rewrite <- Hm. apply Hk.
Qed.

Lemma maintains_bind {A B} (P : world -> Prop) (m : M A) (k : A -> M B) :
  maintains P m -> (forall a, maintains P (k a)) -> maintains P (bind m k).
Proof.
  intros Hm Hk w Hw. specialize (Hm w Hw). unfold exec, bind in *.
  destruct (m w) as [[a|e] w1]; simpl in *; [|done].
  by apply Hk.
Qed.

Lemma broadcast_keeps {B} (f : world -> B) (topic : string) (data : Data) :
  (forall tr w, f (add_invoked tr w) = f w) -> keeps f (broadcast topic data).
Proof. intros Hf w. unfold exec. rewrite broadcast_run. apply Hf. Qed.

Lemma send_keeps {B} (f : world -> B) (topic : string) (data : Data)
    (includeSelf : bool) :
  (forall tr w, f (add_invoked tr w) = f w) ->
  (forall es w, f (add_fired es w) = f w) ->
  (forall g w, f (with_queue g w) = f w) ->
  keeps f (send topic data includeSelf).
Proof.
  intros Hi Hf Hq w. unfold exec.
  destruct (storage w !! (prefix +:+ topic)) as [v|] eqn:Hslot.
  - rewrite (send_busy_run _ _ _ _ v) by done. apply Hq.
  - destruct (JSON_stringify data) as [s|] eqn:Hs.
    + rewrite (send_free_run _ _ _ _ s) by done. simpl. by rewrite Hi, Hf.
    + by rewrite send_failed_run.
Qed.

Lemma arrival_keeps {B} (f : world -> B) (e : StorageEvent) :
  (forall tr w, f (add_invoked tr w) = f w) -> keeps f (arrival_listener e).
Proof.
  intros Hi. unfold arrival_listener.
  destruct (_ && _); [|apply keeps_ret].
  apply keeps_bind.
  - unfold parse. destruct (JSON_parse _); [apply keeps_ret|apply keeps_throw].
  - intros d. by apply broadcast_keeps.
Qed.

Lemma departure_keeps {B} (f : world -> B) (e : StorageEvent) :
  (forall tr w, f (add_invoked tr w) = f w) ->
  (forall es w, f (add_fired es w) = f w) ->
  (forall g w, f (with_queue g w) = f w) ->
  keeps f (departure_listener e).
Proof.
  intros Hi Hf Hq. unfold departure_listener.
  destruct (_ && _); [|apply keeps_ret].
  apply keeps_bind; [apply keeps_gets|]. intros q.
  destruct (in_object _ q); [|apply keeps_ret].
  destruct (q !! _) as [l|]; [|apply keeps_throw].
  destruct (shift undefined l) as [data rest].
  apply keeps_bind; [intros w; apply Hq|]. intros _.
  apply keeps_bind; [by apply send_keeps|]. intros _.
  apply keeps_bind; [apply keeps_gets|]. intros q'.
  destruct (q' !! _) as [l'|]; [|apply keeps_throw].
  destruct (bool_decide _); [intros w; apply Hq|apply keeps_ret].
Qed.

Lemma dispatch_keeps {B} (f : world -> B) (e : StorageEvent) :
  (forall tr w, f (add_invoked tr w) = f w) ->
  (forall es w, f (add_fired es w) = f w) ->
  (forall g w, f (with_queue g w) = f w) ->
  keeps f (dispatch e).
Proof.
  intros Hi Hf Hq w.
  change (exec (dispatch e) w)
    with (exec (departure_listener e) (exec (arrival_listener e) w)).
  by rewrite departure_keeps, arrival_keeps.
Qed.

End Frames.

(** X5 -- The transport leaves nothing in the store and does not touch
    the registry.  Whatever the arguments, the state of the slot and
    the outcome, [send] returns with the items of the store and the
    registry exactly as it found them, and so does the handling of any
    storage event. *)
Theorem store_and_registry_untouched `{Host} (topic : string) (data : Data)
    (includeSelf : bool) (e : StorageEvent) (w : world) :
  storage (exec (send topic data includeSelf) w) = storage w
  /\ callbacks (exec (send topic data includeSelf) w) = callbacks w
  /\ storage (exec (dispatch e) w) = storage w
  /\ callbacks (exec (dispatch e) w) = callbacks w.
Proof.
  split; [|split; [|split]].
  - by apply (send_keeps storage).
  - by apply (send_keeps callbacks).
  - by apply (dispatch_keeps storage).
  - by apply (dispatch_keeps callbacks).
Qed.

(** ** Events the listeners do not act on *)

(** X6 -- Foreign keys and overwrites are ignored.  A storage event
    whose key does not start with the prefix (an item of another
    program), and an event that replaces one value by another (old and
    new value both present), change nothing and call nobody. *)
Theorem foreign_events_ignored `{Host} (e : StorageEvent) (w : world) :
  String.prefix prefix (key e) = false
  \/ (is_Some (oldValue e) /\ is_Some (newValue e)) ->
  arrival_listener e w = (Ok tt, w)
  /\ departure_listener e w = (Ok tt, w)
  /\ exec (dispatch e) w = w.
Proof.
  intros He.
  assert (Ha : arrival_listener e w = (Ok tt, w)).
  { unfold arrival_listener. destruct He as [Hk|[[o Ho] _]].
    - rewrite bool_decide_eq_false_2; [done|].
      intros Hz%starts_with_prefix. congruence.
    - rewrite Ho. by rewrite andb_false_r. }
  assert (Hd : departure_listener e w = (Ok tt, w)).
  { unfold departure_listener. destruct He as [Hk|[_ [n Hn]]].
    - rewrite bool_decide_eq_false_2; [done|].
      intros Hz%starts_with_prefix. congruence.
    - rewrite Hn. by rewrite andb_false_r. }
  split; [exact Ha|]. split; [exact Hd|].
  change (exec (dispatch e) w)
    with (exec (departure_listener e) (exec (arrival_listener e) w)).
  unfold exec. rewrite Ha. simpl. by rewrite Hd.
Qed.

Lemma foreign_events_ignored_witness :
  let w : @world Demo.host :=
    exec (on "theme" 1%nat) (Demo.empty_world Demo.browser) in
  let e := {| key := "theme"; oldValue := None; newValue := Some "1"%string |} in
  (String.prefix prefix (key e) = false
   \/ (is_Some (oldValue e) /\ is_Some (newValue e)))
  /\ exec (dispatch e) w = w.
Proof.
  intros w e.
  assert (He : String.prefix prefix (key e) = false
               \/ (is_Some (oldValue e) /\ is_Some (newValue e)))
    by (left; reflexivity).
  split; [exact He|].
  exact (proj2 (proj2 (foreign_events_ignored e w He))).
Defined.

(** X7 -- A value that is not JSON.  When the text written to the slot
    of a topic is rejected by [JSON.parse], the first listener raises a
    [SyntaxError] before any subscriber is called, and the handling of
    the event leaves the state as it was. *)
Theorem unparseable_value_not_delivered `{Host} (topic s : string) (w : world) :
  JSON_parse s = None ->
  arrival_listener (written (prefix +:+ topic) s) w = (Exn SyntaxError, w)
  /\ exec (dispatch (written (prefix +:+ topic) s)) w = w.
Proof.
  intros Hp.
  assert (Ha : arrival_listener (written (prefix +:+ topic) s) w
               = (Exn SyntaxError, w)).
  { unfold arrival_listener. simpl. rewrite key_starts_with_prefix. simpl.
    unfold parse, bind, throw. simpl. by rewrite Hp. }
  split; [exact Ha|].
  change (exec (dispatch (written (prefix +:+ topic) s)) w)
    with (exec (departure_listener (written (prefix +:+ topic) s))
            (exec (arrival_listener (written (prefix +:+ topic) s)) w)).
  unfold exec. rewrite Ha. simpl. by rewrite departure_of_written.
Qed.

Lemma unparseable_value_not_delivered_witness :
  let w : @world Demo.host :=
    exec (on "t" 1%nat) (Demo.empty_world Demo.browser) in
  @JSON_parse Demo.host "undefined" = None
  /\ exec (dispatch (written (prefix +:+ "t") "undefined")) w = w.
Proof.
  intros w.
  assert (Hp : @JSON_parse Demo.host "undefined" = None) by reflexivity.
  split; [exact Hp|].
  exact (proj2 (unparseable_value_not_delivered "t" "undefined" w Hp)).
Defined.

(** ** Failures inside [send] *)

(** X8 -- A payload that cannot be serialised.  On a free slot [send]
    raises the error of [JSON.stringify] and changes nothing: nothing is
    written, no event is fired, no subscriber is called.  On an occupied
    slot the payload is queued unchecked and [send] returns normally. *)
Theorem unserialisable_payload `{Host} (topic : string) (data : Data)
    (includeSelf : bool) (w : world) :
  JSON_stringify data = None ->
  send topic data includeSelf w
  = match storage w !! (prefix +:+ topic) with
    | None => (Exn TypeError, w)
    | Some _ => (Ok tt, with_queue (enqueued (prefix +:+ topic) data) w)
    end.
Proof.
  intros Hs. destruct (storage w !! (prefix +:+ topic)) as [v|] eqn:Hslot.
  - by apply (send_busy_run _ _ _ _ v).
  - by apply send_failed_run.
Qed.

(** X9 -- A raising subscriber does not stop the transmission.  With
    [includeSelf] set and a local subscriber that raises, [send]
    completes with that exception, but only after the message has left:
    on the storage transport both events have been fired and the slot
    is free again, on the two direct transports the envelope has been
    posted. *)
Theorem local_failure_after_transmission `{Host} (topic : string) (data : Data)
    (s : string) (c : handle) (w : world) :
  JSON_stringify data = Some s ->
  storage w !! (prefix +:+ topic) = None ->
  completes (subscribers topic w) data = Exn (Thrown c) ->
  outcome (send topic data true) w = Exn (Thrown c)
  /\ emitted (send topic data true) w
     = [written (prefix +:+ topic) s; removed (prefix +:+ topic) s]
  /\ storage (exec (send topic data true) w) !! (prefix +:+ topic) = None
  /\ outcome (broadcastChannelApiFactory.send topic data true) w = Exn (Thrown c)
  /\ posted (exec (broadcastChannelApiFactory.send topic data true) w)
     = posted w ++ [(topic, data)]
  /\ outcome (sharedWorkerApiFactory.send topic data true) w = Exn (Thrown c)
  /\ posted (exec (sharedWorkerApiFactory.send topic data true) w)
     = posted w ++ [(topic, data)].
Proof.
  intros Hs Hfree Hc.
  assert (Hb : forall w', callbacks w' = callbacks w ->
                 broadcast_completes topic data w' = Exn (Thrown c)).
  { intros w' Hw'. unfold broadcast_completes, subscribers in *. rewrite Hw'.
    by destruct (callbacks w !! topic). }
  unfold outcome, emitted, exec.
  rewrite (send_free_run topic data true w s Hs Hfree). simpl.
  split; [by apply Hb|]. split; [by rewrite drop_app_length|].
  split; [exact Hfree|].
  unfold broadcastChannelApiFactory.send, sharedWorkerApiFactory.send,
    broadcastChannelApiFactory.postMessage, sharedWorkerApiFactory.postMessage,
    modify, bind. simpl.
  rewrite broadcast_run. simpl. by rewrite Hb.
Qed.

Lemma local_failure_after_transmission_witness :
  let w : @world Demo.host :=
    exec (on "t" 0%nat) (Demo.empty_world Demo.browser) in
  let d : @Data Demo.host := Demo.PInt 7 in
  JSON_stringify d = Some "7"%string
  /\ storage w !! (prefix +:+ "t") = None
  /\ completes (subscribers "t" w) d = Exn (Thrown 0%nat)
  /\ outcome (send "t" d true) w = Exn (Thrown 0%nat)
  /\ emitted (send "t" d true) w
     = [written (prefix +:+ "t") "7"; removed (prefix +:+ "t") "7"].
Proof.
  intros w d.
  assert (Hs : JSON_stringify d = Some "7"%string) by reflexivity.
  assert (Hfree : storage w !! (prefix +:+ "t") = None) by reflexivity.
  assert (Hc : completes (subscribers "t" w) d = Exn (Thrown 0%nat))
    by (vm_compute; reflexivity).
  destruct (local_failure_after_transmission "t" d "7" 0%nat w Hs Hfree Hc)
    as (Ho & He & _).
  split; [exact Hs|]. split; [exact Hfree|]. split; [exact Hc|].
  split; [exact Ho|exact He].
Defined.

Lemma unserialisable_payload_witness :
  let w : @world DemoCyclic.host := DemoCyclic.empty_world Demo.browser in
  JSON_stringify DemoCyclic.cyclic = None
  /\ send "t" DemoCyclic.cyclic true w = (Exn TypeError, w)
  /\ queue (exec (send "t" DemoCyclic.cyclic true)
              (with_storage (insert (prefix +:+ "t") "0"%string) w))
     !! (prefix +:+ "t") = Some [DemoCyclic.cyclic].
Proof.
  intros w.
  assert (Hs : JSON_stringify DemoCyclic.cyclic = None) by reflexivity.
  split; [exact Hs|]. split.
  - exact (unserialisable_payload "t" DemoCyclic.cyclic true w Hs).
  - rewrite (f_equal snd
               (unserialisable_payload "t" DemoCyclic.cyclic true
                  (with_storage (insert (prefix +:+ "t") "0"%string) w) Hs)
             : exec _ _ = _).
    reflexivity.
Defined.

(** ** Draining *)

(** X10 -- One departure drains one payload, oldest first.  When the
    queue has an entry under the topic the second listener computes,
    the slot of that topic is free and the oldest payload can be
    serialised, the departure of the slot pops that payload, transmits
    it without [includeSelf] (one write and one removal of the slot),
    keeps the later payloads in their order, and deletes the entry when
    it has become empty. *)
Theorem departure_drains_oldest `{Host} (topic : string) (old : option string)
    (x : Data) (rest : list Data) (s : string) (w : world) :
  queue w !! topic = Some (x :: rest) ->
  storage w !! (prefix +:+ topic) = None ->
  JSON_stringify x = Some s ->
  departure_listener
    {| key := prefix +:+ topic; oldValue := old; newValue := None |} w
  = (Ok tt,
     add_fired [written (prefix +:+ topic) s; removed (prefix +:+ topic) s]
       (with_queue (match rest with
                    | [] => delete topic
                    | _ :: _ => insert topic rest
                    end) w)).
Proof.
  intros Hq Hfree Hs. unfold departure_listener. simpl.
  rewrite key_starts_with_prefix, topic_of_key. simpl.
  unfold gets at 1, bind at 1. rewrite (in_object_own _ _ _ Hq), Hq. simpl.
  unfold modify at 1, bind at 1.
  unfold bind at 1.
  rewrite (send_free_run topic x false _ s Hs) by exact Hfree.
  unfold gets, bind. simpl. rewrite lookup_insert_eq.
  destruct w as [cbs q st wi inv fi po wa];
    unfold add_invoked, add_fired, with_queue, modify, ret; simpl in *.
  destruct rest as [|y rest]; simpl; rewrite app_nil_r.
  - by rewrite delete_insert_eq.
  - reflexivity.
Qed.

Lemma departure_drains_oldest_witness :
  let K : string := "__across-tabs:t" in
  let a : @Data Demo.host := Demo.PInt 1 in
  let b : @Data Demo.host := Demo.PInt 2 in
  let w := with_queue (insert K [a; b]) (Demo.empty_world Demo.browser) in
  let w' := exec (departure_listener (removed (prefix +:+ K) "0")) w in
  queue w !! K = Some [a; b]
  /\ storage w !! (prefix +:+ K) = None
  /\ JSON_stringify a = Some "1"%string
  /\ queue w' !! K = Some [b]
  /\ fired w' = [written (prefix +:+ K) "1"; removed (prefix +:+ K) "1"].
Proof.
  intros K a b w w'.
  assert (Hq : queue w !! K = Some [a; b]) by (vm_compute; reflexivity).
  assert (Hfree : storage w !! (prefix +:+ K) = None) by reflexivity.
  assert (Hs : JSON_stringify a = Some "1"%string) by reflexivity.
  split; [exact Hq|]. split; [exact Hfree|]. split; [exact Hs|].
  subst w'. unfold exec, removed.
  rewrite (departure_drains_oldest K (Some "0"%string) a [b] "1" w Hq Hfree Hs).
  split; [vm_compute; reflexivity|reflexivity].
Defined.

(** ** Invariants of a context *)

Section Invariants.
Context `{Host}.

Lemma off_only_registry (topic : string) (cb : option handle) (w : world) :
  exists f, exec (off topic cb) w = with_callbacks f w.
Proof.
  destruct (callbacks w !! topic) as [l|] eqn:Hl.
  - unfold exec. destruct cb as [c|].
    + eexists. by rewrite (off_function_run topic c w l Hl).
    + eexists. by rewrite off_all_run.
  - exists (fun cbs => cbs). rewrite off_unowned_exec by done.
    by destruct w.
Qed.

Lemma send_maintains_queue_keys (topic : string) (data : Data) (includeSelf : bool) :
  maintains queue_keys_ok (send topic data includeSelf).
Proof.
  intros w Hw k. unfold exec.
  destruct (storage w !! (prefix +:+ topic)) as [v|] eqn:Hslot.
  - rewrite (send_busy_run _ _ _ _ v) by done. simpl. unfold enqueued.
    destruct (decide (k = prefix +:+ topic)) as [->|Hne]; [by eexists|].
    rewrite lookup_insert_ne by done. apply Hw.
  - destruct (JSON_stringify data) as [s|] eqn:Hs.
    + rewrite (send_free_run _ _ _ _ s) by done. simpl. apply Hw.
    + rewrite send_failed_run by done. apply Hw.
Qed.

Lemma departure_maintains_queue_keys (e : StorageEvent) :
  maintains queue_keys_ok (departure_listener e).
Proof.
  intros w Hw. unfold departure_listener.
  destruct (_ && _); [|exact Hw].
  set (topic := replace prefix "" (key e)).
  unfold exec, bind at 1, gets at 1. simpl.
  destruct (in_object topic (queue w)); [|exact Hw].
  destruct (queue w !! topic) as [l|] eqn:Hq; [|exact Hw].
  assert (Ht : exists t, topic = prefix +:+ t) by (apply Hw; by rewrite Hq).
  destruct (shift undefined l) as [data rest].
  apply (maintains_bind queue_keys_ok); [| |exact Hw].
  - intros w1 Hw1 k. unfold exec, modify. simpl.
    destruct (decide (k = topic)) as [->|Hne]; [done|].
    rewrite lookup_insert_ne by done. apply Hw1.
  - intros _. apply maintains_bind; [apply send_maintains_queue_keys|].
    intros _ w1 Hw1. unfold exec, bind, gets. simpl.
    destruct (queue w1 !! topic) as [l'|]; [|exact Hw1].
    destruct (bool_decide _); [|exact Hw1].
    intros k. unfold modify. simpl.
    destruct (decide (k = topic)) as [->|Hne]; [done|].
    rewrite lookup_delete_ne by done. apply Hw1.
Qed.

Lemma perform_maintains_queue_keys (s : step) (w : world) :
  queue_keys_ok w -> queue_keys_ok (perform s w).
Proof.
  intros Hw. destruct s as [t c|t cb|t d i|e|items]; simpl.
  - unfold exec. rewrite on_run.
    by destruct (registry_call_completes t w).
  - destruct (off_only_registry t cb w) as [f ->]. exact Hw.
  - by apply send_maintains_queue_keys.
  - change (exec (dispatch e) w)
      with (exec (departure_listener e) (exec (arrival_listener e) w)).
    apply departure_maintains_queue_keys.
    intros k. rewrite (arrival_keeps queue e) by done. apply Hw.
  - exact Hw.
Qed.

Lemma history_maintains_queue_keys (ss : list step) (w : world) :
  queue_keys_ok w -> queue_keys_ok (history ss w).
Proof.
  revert w. induction ss as [|s ss IH]; intros w Hw; [exact Hw|].
  apply IH. by apply perform_maintains_queue_keys.
Qed.

Lemma perform_maintains_registry (s : step) (w : world) :
  registry_ok w -> registry_ok (perform s w).
Proof.
  intros Hw. destruct s as [t c|t cb|t d i|e|items]; simpl.
  - by apply on_maintains_registry.
  - by apply off_maintains_registry.
  - intros k. rewrite (send_keeps callbacks) by done. apply Hw.
  - intros k. rewrite (dispatch_keeps callbacks) by done. apply Hw.
  - exact Hw.
Qed.

Lemma history_maintains_registry (ss : list step) (w : world) :
  registry_ok w -> registry_ok (history ss w).
Proof.
  revert w. induction ss as [|s ss IH]; intros w Hw; [exact Hw|].
  apply IH. by apply perform_maintains_registry.
Qed.

End Invariants.

(** X11 -- The pending queue is keyed by slot keys, so ordinary topics
    are never drained.  In every state a context reaches from one whose
    queue keys are keys of topics (the empty queue it starts with),
    whatever it calls, whatever events it handles and whatever the
    other contexts do to the store, every key of the queue is still
    [prefix + topic] for some topic; hence for a topic that does not
    itself start with the prefix the queue has no entry under the bare
    topic, and the departure of its slot changes nothing. *)
Theorem ordinary_topics_never_drained `{Host} (ss : list step) (w0 : world)
    (topic s : string) :
  queue_keys_ok w0 ->
  String.prefix prefix topic = false ->
  let w := history ss w0 in
  queue_keys_ok w
  /\ queue w !! topic = None
  /\ exec (dispatch (removed (prefix +:+ topic) s)) w = w.
Proof.
  intros Hw0 Ht w.
  assert (Hw : queue_keys_ok w) by (by apply history_maintains_queue_keys).
  assert (Hq : queue w !! topic = None).
  { destruct (queue w !! topic) as [l|] eqn:E; [|done].
    destruct (Hw topic) as [t Heq]; [by rewrite E|].
    rewrite Heq, prefix_append in Ht. discriminate Ht. }
  split; [exact Hw|]. split; [exact Hq|].
  by apply dispatch_removed_unqueued.
Qed.

Lemma ordinary_topics_never_drained_witness :
  let K : string := "__across-tabs:t" in
  let a : @Data Demo.host := Demo.PInt 1 in
  let b : @Data Demo.host := Demo.PInt 2 in
  let w0 : @world Demo.host := Demo.empty_world Demo.browser in
  let ss := [Elsewhere {[ K := "0"%string ]}; CallSend "t" a false;
             CallSend "t" b true; Elsewhere ∅] in
  queue_keys_ok w0
  /\ String.prefix prefix "t" = false
  /\ queue (history ss w0) !! K = Some [a; b]
  /\ exec (dispatch (removed (prefix +:+ "t") "0")) (history ss w0) = history ss w0.
Proof.
  intros K a b w0 ss.
  assert (Hw0 : queue_keys_ok w0).
  { intros k [l Hl]. vm_compute in Hl. discriminate Hl. }
  assert (Ht : String.prefix prefix "t" = false) by reflexivity.
  split; [exact Hw0|]. split; [exact Ht|]. split; [vm_compute; reflexivity|].
  exact (proj2 (proj2 (ordinary_topics_never_drained ss w0 "t" "0" Hw0 Ht))).
Defined.

(** X12 -- A topic is known exactly while it has subscribers.  In every
    state a context reaches from a registry without empty lists (the
    empty registry it starts with), no topic has an empty list: the
    first [on] creates the entry with its callback, and the [off] that
    empties a list deletes the entry. *)
Theorem known_topics_have_subscribers `{Host} (ss : list step) (w0 : world)
    (topic : string) :
  registry_ok w0 ->
  callbacks (history ss w0) !! topic <> Some []
  /\ (is_Some (callbacks (history ss w0) !! topic)
      <-> subscribers topic (history ss w0) <> []).
Proof.
  intros Hw0.
  assert (Hw : registry_ok (history ss w0)) by (by apply history_maintains_registry).
  split; [apply Hw|]. unfold subscribers. specialize (Hw topic).
  destruct (callbacks (history ss w0) !! topic) as [[|x l]|]; simpl.
  - done.
  - split; [done|by eexists].
  - split; [by intros [? ?]|done].
Qed.

Lemma known_topics_have_subscribers_witness :
  let w0 : @world Demo.host := Demo.empty_world Demo.browser in
  let ss := [CallOn "t" 1%nat; CallOn "t" 2%nat; CallOff "t" (Some 3%nat);
             CallOff "t" (Some 1%nat)] in
  registry_ok w0
  /\ callbacks (history ss w0) !! "t"%string = None
  /\ callbacks (history ss w0) !! "t"%string <> Some [].
Proof.
  intros w0 ss.
  assert (Hw0 : registry_ok w0).
  { intros t Hl. vm_compute in Hl. discriminate Hl. }
  split; [exact Hw0|]. split; [vm_compute; reflexivity|].
  exact (proj1 (known_topics_have_subscribers ss w0 "t" Hw0)).
Defined.

(** ** Sequences of sends *)

Section Sequences.
Context `{Host}.

Lemma add_fired_nil (w : world) : add_fired [] w = w.
Proof. destruct w; unfold add_fired; simpl. by rewrite app_nil_r. Qed.

Lemma add_fired_app es1 es2 (w : world) :
  add_fired es2 (add_fired es1 w) = add_fired (es1 ++ es2) w.
Proof. destruct w; unfold add_fired; simpl. by rewrite app_assoc. Qed.

Lemma recoverable_text (d : Data) :
  recoverable d ->
  JSON_stringify d = Some (text_of d) /\ JSON_parse (text_of d) = Some d.
Proof.
  unfold recoverable, text_of. destruct (JSON_stringify d) as [s|]; simpl; [done|].
  discriminate.
Qed.

Lemma send_all_free_run (topic : string) (ds : list Data) (w : world) :
  storage w !! (prefix +:+ topic) = None ->
  Forall recoverable ds ->
  send_all topic ds w
  = (Ok tt, add_fired (concat (transmission topic <$> ds)) w).
Proof.
  intros Hfree Hds. revert w Hfree.
  induction Hds as [|d ds Hd _ IH]; intros w Hfree.
  - unfold send_all, ret. simpl. by rewrite add_fired_nil.
  - destruct (recoverable_text d Hd) as [Hs _].
    unfold send_all in *. simpl. unfold bind at 1.
    rewrite (send_free_run topic d false w _ Hs Hfree). rewrite add_invoked_nil.
    rewrite IH by exact Hfree. by rewrite add_fired_app.
Qed.

Lemma send_all_busy_run (topic : string) (ds : list Data) (w : world) (v : string) :
  storage w !! (prefix +:+ topic) = Some v ->
  send_all topic ds w
  = (Ok tt, foldl (fun w d => with_queue (enqueued (prefix +:+ topic) d) w) w ds).
Proof.
  intros Hbusy. revert w Hbusy. induction ds as [|d ds IH]; intros w Hbusy.
  - reflexivity.
  - unfold send_all in *. simpl. unfold bind at 1.
    rewrite (send_busy_run topic d false w v Hbusy). by rewrite IH.
Qed.

Lemma deliver_app (es1 es2 : list StorageEvent) (w : world) :
  deliver (es1 ++ es2) w = deliver es2 (deliver es1 w).
Proof. unfold deliver. apply foldl_app. Qed.

Lemma deliver_transmission (topic : string) (d : Data) (w : world) :
  recoverable d ->
  invoked (deliver (transmission topic d) w)
  = invoked w ++ delivered (subscribers topic w) d
  /\ callbacks (deliver (transmission topic d) w) = callbacks w.
Proof.
  intros Hd. destruct (recoverable_text d Hd) as [_ Hp].
  unfold transmission, deliver. simpl foldl. split.
  - by rewrite dispatch_removed_invoked, (dispatch_written topic _ d w Hp).
  - by rewrite !(dispatch_keeps callbacks).
Qed.

Lemma deliver_transmissions (topic : string) (ds : list Data) (w : world) :
  Forall recoverable ds ->
  invoked (deliver (concat (transmission topic <$> ds)) w)
  = invoked w ++ concat ((fun d => delivered (subscribers topic w) d) <$> ds).
Proof.
  intros Hds. revert w. induction Hds as [|d ds Hd _ IH]; intros w.
  - simpl. by rewrite app_nil_r.
  - rewrite fmap_cons, !concat_cons, deliver_app, IH.
    destruct (deliver_transmission topic d w Hd) as [Hi Hc].
    rewrite Hi. unfold subscribers. rewrite Hc. by rewrite <- app_assoc.
Qed.

End Sequences.

(** X13 -- Sends arrive in the order they were made.  A context whose
    slot for a topic is free sends a list of recoverable payloads on
    that topic, one after the other: each is transmitted at once (the
    slot is free again before the next send, so nothing is queued), and
    another context that handles the events calls its subscribers of
    the topic for the first payload, then for the second, and so on. *)
Theorem sends_arrive_in_order `{Host} (topic : string) (ds : list Data)
    (sender receiver : world) :
  storage sender !! (prefix +:+ topic) = None ->
  Forall recoverable ds ->
  outcome (send_all topic ds) sender = Ok tt
  /\ queue (exec (send_all topic ds) sender) = queue sender
  /\ storage (exec (send_all topic ds) sender) = storage sender
  /\ invoked (deliver (emitted (send_all topic ds) sender) receiver)
     = invoked receiver
       ++ concat ((fun d => delivered (subscribers topic receiver) d) <$> ds).
Proof.
  intros Hfree Hds. unfold outcome, emitted, exec.
  rewrite (send_all_free_run topic ds sender Hfree Hds). simpl.
  repeat split. rewrite drop_app_length. by apply deliver_transmissions.
Qed.

Lemma sends_arrive_in_order_witness :
  let a : @Data Demo.host := Demo.PInt 1 in
  let b : @Data Demo.host := Demo.PBool true in
  let sender : @world Demo.host := Demo.empty_world Demo.browser in
  let receiver : @world Demo.host :=
    exec (on "t" 1%nat ;; on "t" 2%nat) (Demo.empty_world Demo.browser) in
  storage sender !! (prefix +:+ "t") = None
  /\ Forall recoverable [a; b]
  /\ invoked (deliver (emitted (send_all "t" [a; b]) sender) receiver)
     = [(1%nat, a); (2%nat, a); (1%nat, b); (2%nat, b)].
Proof.
  intros a b sender receiver.
  assert (Hfree : storage sender !! (prefix +:+ "t") = None) by reflexivity.
  assert (Hds : Forall recoverable [a; b]) by (repeat constructor).
  split; [exact Hfree|]. split; [exact Hds|].
  exact (proj2 (proj2 (proj2
           (sends_arrive_in_order "t" [a; b] sender receiver Hfree Hds)))).
Defined.

(** X14 -- Sends on an occupied slot queue up in order.  While the
    slot of a topic holds a value, the payloads sent on that topic are
    appended, in the order of the calls, to the queue entry of the
    slot's key; the entries of other keys are not changed, nothing is
    written to the store, no event is fired and no subscriber is
    called. *)
Theorem contended_sends_queue_in_order `{Host} (topic : string) (ds : list Data)
    (v : string) (w : world) :
  storage w !! (prefix +:+ topic) = Some v ->
  let w' := exec (send_all topic ds) w in
  default [] (queue w' !! (prefix +:+ topic))
  = default [] (queue w !! (prefix +:+ topic)) ++ ds
  /\ (forall k, k <> prefix +:+ topic -> queue w' !! k = queue w !! k)
  /\ storage w' = storage w
  /\ fired w' = fired w
  /\ invoked w' = invoked w.
Proof.
  intros Hbusy w'. subst w'. unfold exec.
  rewrite (send_all_busy_run topic ds w v Hbusy). simpl. clear Hbusy.
  revert w. induction ds as [|d ds IH]; intros w.
  - simpl. by rewrite app_nil_r.
  - simpl foldl.
    destruct (IH (with_queue (enqueued (prefix +:+ topic) d) w))
      as (Hq & Hk & Hst & Hf & Hi).
    split; [|split; [|by repeat split]].
    + rewrite Hq. simpl. unfold enqueued. rewrite lookup_insert_eq. simpl.
      by rewrite <- app_assoc.
    + intros k Hne. rewrite Hk by done. simpl. unfold enqueued.
      by rewrite lookup_insert_ne.
Qed.

Lemma contended_sends_queue_in_order_witness :
  let K : string := "__across-tabs:t" in
  let a : @Data Demo.host := Demo.PInt 1 in
  let b : @Data Demo.host := Demo.PInt 2 in
  let w := with_storage (insert K "0"%string) (Demo.empty_world Demo.browser) in
  storage w !! (prefix +:+ "t") = Some "0"%string
  /\ default [] (queue (exec (send_all "t" [a; b]) w) !! (prefix +:+ "t")) = [a; b].
Proof.
  intros K a b w.
  assert (Hbusy : storage w !! (prefix +:+ "t") = Some "0"%string)
    by (vm_compute; reflexivity).
  split; [exact Hbusy|].
  exact (proj1 (contended_sends_queue_in_order "t" [a; b] "0" w Hbusy)).
Defined.

(** ** The path of the worker script *)

Section WorkerPath.
Import sharedWorkerApiFactory.

Lemma strip_spec (p s r : string) : strip p s = Some r -> s = p +:+ r.
Proof.
  revert s. induction p as [|a p IH]; intros s Hs.
  - simpl in Hs. by injection Hs as ->.
  - destruct s as [|b s]; [discriminate Hs|]. simpl in Hs.
    destruct (Ascii.eqb_spec a b) as [->|]; [|discriminate Hs].
    change (String b p +:+ r) with (String b (p +:+ r)). f_equal. by apply IH.
Qed.

Lemma match_here_spec (s g rest : string) :
  match_here s = Some (g, rest) ->
  s = "hermes" +:+ g +:+ ".js" +:+ rest /\ (g = "" \/ g = ".min")%string.
Proof.
  unfold match_here. destruct (strip "hermes" s) as [r|] eqn:Hr; [|discriminate].
  apply strip_spec in Hr.
  destruct (strip ".min" r) as [r1|] eqn:Hmin.
  - apply strip_spec in Hmin. destruct (strip ".js" r1) as [r2|] eqn:Hjs.
    + apply strip_spec in Hjs. intros [= <- <-]. split; [|by right].
      by rewrite Hr, Hmin, Hjs.
    + destruct (strip ".js" r) as [r2|] eqn:Hjs2; [|discriminate].
      apply strip_spec in Hjs2. intros [= <- <-]. split; [|by left].
      by rewrite Hr, Hjs2.
  - destruct (strip ".js" r) as [r2|] eqn:Hjs2; [|discriminate].
    apply strip_spec in Hjs2. intros [= <- <-]. split; [|by left].
    by rewrite Hr, Hjs2.
Qed.

Lemma match_here_script (min : bool) (post : string) :
  match_here (script_name min +:+ post)
  = Some (if min then ".min"%string else ""%string, post).
Proof.
  by destruct min.
Qed.

Lemma workerPath_unfold (s : string) :
  workerPath s
  = match match_here s with
    | Some (group, rest) => "hermes-worker" +:+ group +:+ ".js" +:+ rest
    | None =>
        match s with
        | EmptyString => EmptyString
        | String c s' => String c (workerPath s')
        end
    end.
Proof. by destruct s. Qed.

Lemma append_empty_r (s : string) : s +:+ "" = s.
Proof.
  induction s as [|a s IH]; [done|].
  change (String a s +:+ "") with (String a (s +:+ "")). by rewrite IH.
Qed.

Lemma length_append (s1 s2 : string) :
  String.length (s1 +:+ s2) = (String.length s1 + String.length s2)%nat.
Proof.
  induction s1 as [|a s1 IH]; [done|].
  change (String a s1 +:+ s2) with (String a (s1 +:+ s2)). simpl. by rewrite IH.
Qed.

End WorkerPath.

(** X15 -- The worker script sits beside the library script.  When the
    pattern matches nowhere before the file name, the path of the
    worker is the path of the script with [hermes.js] replaced by
    [hermes-worker.js], or [hermes.min.js] by [hermes-worker.min.js]:
    the directory before the name and whatever follows it are kept. *)
Theorem worker_path_beside_script (pre post : string) (min : bool) :
  no_match_before pre (script_name min +:+ post) = true ->
  sharedWorkerApiFactory.workerPath (pre +:+ script_name min +:+ post)
  = pre +:+ worker_name min +:+ post.
Proof.
  induction pre as [|c pre IH]; intros Hpre.
  - change ("" +:+ ?x)%string with x.
    rewrite workerPath_unfold, match_here_script. by destruct min.
  - simpl in Hpre. apply andb_true_iff in Hpre as [Hhere Hpre].
    rewrite workerPath_unfold.
    destruct (sharedWorkerApiFactory.match_here
                (String c pre +:+ script_name min +:+ post)) as [[g rest]|] eqn:E.
    + rewrite bool_decide_eq_true_2 in Hhere by (by eexists). discriminate Hhere.
    + change (String c pre +:+ ?x) with (String c (pre +:+ x)).
      cbv beta iota. by rewrite IH.
Qed.

Lemma worker_path_beside_script_witness :
  no_match_before "/js/vendor/" (script_name true +:+ "") = true
  /\ sharedWorkerApiFactory.workerPath "/js/vendor/hermes.min.js"
     = "/js/vendor/hermes-worker.min.js"%string.
Proof.
  assert (Hpre : no_match_before "/js/vendor/" (script_name true +:+ "") = true)
    by reflexivity.
  split; [exact Hpre|].
  exact (worker_path_beside_script "/js/vendor/" "" true Hpre).
Defined.

(** X16 -- The worker is never loaded from the library script itself.
    For every path that ends in [hermes.js] or [hermes.min.js], as the
    script found by the selector of line 77 does, the worker path is
    seven characters longer than the script path, so the two differ,
    wherever in the path the first match lies. *)
Theorem worker_path_differs (dir : string) (min : bool) :
  let script := dir +:+ script_name min in
  String.length (sharedWorkerApiFactory.workerPath script)
  = (String.length script + 7)%nat
  /\ sharedWorkerApiFactory.workerPath script <> script.
Proof.
  intros script.
  assert (Hlen : String.length (sharedWorkerApiFactory.workerPath script)
                 = (String.length script + 7)%nat).
  { subst script. induction dir as [|c dir IH].
    - change ("" +:+ ?x)%string with x.
      rewrite workerPath_unfold.
      rewrite <- (append_empty_r (script_name min)), match_here_script.
      by destruct min.
    - rewrite workerPath_unfold.
      destruct (sharedWorkerApiFactory.match_here (String c dir +:+ script_name min))
        as [[g rest]|] eqn:E.
      + apply match_here_spec in E as [-> _]. rewrite !length_append. simpl. lia.
      + change (String c dir +:+ ?x) with (String c (dir +:+ x)).
        cbv beta iota. simpl String.length. by rewrite IH. }
  split; [exact Hlen|]. intros Heq. rewrite Heq in Hlen. lia.
Qed.

(** ** A queued payload that cannot be serialised *)

(** X17 -- The turn of an unserialisable payload.  When the payload
    popped by the second listener is rejected by [JSON.stringify], the
    re-send raises before anything is written: the payload is gone, the
    listener ends with the error, and the test that deletes an emptied
    entry is not reached, so an entry whose only payload it was stays
    in the queue with an empty list.  The next departure of the slot
    pops [undefined] from that empty list, transmits the text the store
    keeps for it, and deletes the entry. *)
Theorem unserialisable_payload_in_queue `{Host} (topic : string)
    (old : option string) (x : Data) (s : string) (w : world) :
  queue w !! topic = Some [x] ->
  storage w !! (prefix +:+ topic) = None ->
  JSON_stringify x = None ->
  JSON_stringify undefined = Some s ->
  let e := {| key := prefix +:+ topic; oldValue := old; newValue := None |} in
  departure_listener e w = (Exn TypeError, with_queue (insert topic []) w)
  /\ departure_listener e (with_queue (insert topic []) w)
     = (Ok tt,
        add_fired [written (prefix +:+ topic) s; removed (prefix +:+ topic) s]
          (with_queue (delete topic) w)).
Proof.
  intros Hq Hfree Hx Hu e. subst e. split.
  - unfold departure_listener. simpl.
    rewrite key_starts_with_prefix, topic_of_key. simpl.
    unfold gets at 1, bind at 1. rewrite (in_object_own _ _ _ Hq), Hq. simpl.
    unfold modify at 1, bind at 1. unfold bind at 1.
    by rewrite (send_failed_run topic x false _ Hx) by exact Hfree.
  - unfold departure_listener. simpl.
    rewrite key_starts_with_prefix, topic_of_key. simpl.
    unfold gets at 1, bind at 1. simpl.
    rewrite (in_object_own topic _ []) by apply lookup_insert_eq.
    rewrite lookup_insert_eq. simpl.
    unfold modify at 1, bind at 1. unfold bind at 1.
    rewrite (send_free_run topic undefined false _ s Hu) by exact Hfree.
    unfold gets, bind. simpl. rewrite lookup_insert_eq. simpl.
    destruct w as [cbs q st wi inv fi po wa];
      unfold add_invoked, add_fired, with_queue, modify; simpl in *.
    by rewrite app_nil_r, insert_insert_eq, delete_insert_eq.
Qed.

Lemma unserialisable_payload_in_queue_witness :
  let K : string := "__across-tabs:t" in
  let w : @world DemoCyclic.host :=
    with_queue (insert K [DemoCyclic.cyclic]) (DemoCyclic.empty_world Demo.browser) in
  let e := removed (prefix +:+ K) "0" in
  queue w !! K = Some [DemoCyclic.cyclic]
  /\ storage w !! (prefix +:+ K) = None
  /\ JSON_stringify DemoCyclic.cyclic = None
  /\ @JSON_stringify DemoCyclic.host undefined = Some "undefined"%string
  /\ outcome (departure_listener e) w = Exn TypeError
  /\ queue (exec (departure_listener e) w) !! K = Some [].
Proof.
  intros K w e.
  assert (Hq : queue w !! K = Some [DemoCyclic.cyclic]) by (vm_compute; reflexivity).
  assert (Hfree : storage w !! (prefix +:+ K) = None) by reflexivity.
  assert (Hx : JSON_stringify DemoCyclic.cyclic = None) by reflexivity.
  assert (Hu : @JSON_stringify DemoCyclic.host undefined = Some "undefined"%string)
    by reflexivity.
  split; [exact Hq|]. split; [exact Hfree|]. split; [exact Hx|]. split; [exact Hu|].
  subst e. unfold outcome, exec, removed.
  rewrite (proj1 (unserialisable_payload_in_queue K (Some "0"%string)
                    DemoCyclic.cyclic "undefined" w Hq Hfree Hx Hu)).
  split; [reflexivity|vm_compute; reflexivity].
Defined.

(** ** Inherited names *)

Section InheritedNames.
Context `{Host}.

Lemma perform_maintains_no_inherited (s : step) (w : world) :
  no_inherited_entry w -> no_inherited_entry (perform s w).
Proof.
  intros Hw. destruct s as [t c|t cb|t d i|e|items]; simpl.
  - intros t' Ht'. unfold exec. rewrite on_run. unfold registry_call_completes.
    destruct (callbacks w !! t) as [l|] eqn:Hl.
    + destruct (decide (t' = t)) as [->|Hne].
      * rewrite (Hw t Ht') in Hl. discriminate Hl.
      * simpl. rewrite lookup_insert_ne by done. by apply Hw.
    + destruct (inherited t) eqn:Hi; simpl; [by apply Hw|].
      destruct (decide (t' = t)) as [->|Hne]; [congruence|].
      rewrite lookup_insert_ne by done. by apply Hw.
  - intros t' Ht'. destruct (decide (t' = t)) as [->|Hne].
    + rewrite off_unowned_exec by (by apply Hw). by apply Hw.
    + rewrite off_run_lookup by done. by apply Hw.
  - intros t' Ht'. rewrite (send_keeps callbacks) by done. by apply Hw.
  - intros t' Ht'. rewrite (dispatch_keeps callbacks) by done. by apply Hw.
  - exact Hw.
Qed.

Lemma history_maintains_no_inherited (ss : list step) (w : world) :
  no_inherited_entry w -> no_inherited_entry (history ss w).
Proof.
  revert w. induction ss as [|s ss IH]; intros w Hw; [exact Hw|].
  apply IH. by apply perform_maintains_no_inherited.
Qed.

End InheritedNames.

(** X18 -- The names every object inherits cannot be topics.  In every
    state a context reaches from a registry without entries under
    inherited names (the empty registry it starts with), a topic named
    like a property of [Object.prototype] has no entry of its own, and
    [on], [off] with a function, and [broadcast] on it raise a
    [TypeError] and change nothing: such a topic can never get a
    subscriber.  [off] without a function returns normally and changes
    nothing. *)
Theorem inherited_names_are_not_topics `{Host} (ss : list step) (w0 : world)
    (topic : string) (c : handle) (data : Data) :
  inherited topic = true ->
  no_inherited_entry w0 ->
  let w := history ss w0 in
  callbacks w !! topic = None
  /\ on topic c w = (Exn TypeError, w)
  /\ off topic (Some c) w = (Exn TypeError, w)
  /\ broadcast topic data w = (Exn TypeError, w)
  /\ off topic None w = (Ok tt, w).
Proof.
  intros Hi Hw0 w.
  assert (Hl : callbacks w !! topic = None)
    by (by apply history_maintains_no_inherited).
  split; [exact Hl|]. split; [|split; [|split]].
  - rewrite on_run. unfold registry_call_completes. by rewrite Hl, Hi.
  - by apply off_inherited_run.
  - rewrite broadcast_run. unfold broadcast_completes, subscribers.
    rewrite Hl, Hi. simpl. by rewrite add_invoked_nil.
  - rewrite off_all_run. f_equal.
    destruct w as [cbs q st wi inv fi po wa]; unfold with_callbacks; simpl in *.
    f_equal. by apply delete_id.
Qed.

Lemma inherited_names_are_not_topics_witness :
  let w0 : @world Demo.host := Demo.empty_world Demo.browser in
  let ss := [CallOn "constructor" 1%nat; CallOn "t" 2%nat] in
  let d : @Data Demo.host := Demo.PInt 7 in
  inherited "constructor" = true
  /\ no_inherited_entry w0
  /\ on "constructor" 1%nat (history ss w0) = (Exn TypeError, history ss w0)
  /\ broadcast "constructor" d (history ss w0) = (Exn TypeError, history ss w0).
Proof.
  intros w0 ss d.
  assert (Hi : inherited "constructor" = true) by reflexivity.
  assert (Hw0 : no_inherited_entry w0) by (intros t _; apply lookup_empty).
  destruct (inherited_names_are_not_topics ss w0 "constructor" 1%nat d Hi Hw0)
    as (_ & Hon & _ & Hbr & _).
  split; [exact Hi|]. split; [exact Hw0|]. split; [exact Hon|exact Hbr].
Defined.
